(** * Verification of the real-time audio pipeline's buffering and session logic

    Shallow embedding of the Go sources:
    - the jitter buffer [audioBuffer] (constructor, [Read], [Write],
      [Close]);
    - the sample conversion of [recordAudioToWav];
    - the inbound decode loops [WriteWebRTCTrack];
    - the session logic [OpenAIRealtimeAPI.Connect] / [Disconnect].

    Every method of [audioBuffer] runs under the buffer's mutex, so a
    method is one atomic transition of the buffer state.  The two places
    where a method may not return are explicit: [Read] parked on the
    condition variable is the outcome [ReadWaits], and the discard loop of
    [Write] is a fuel-indexed function. *)

From Stdlib Require Import ZArith Bool String.
From Stdlib Require Import Init.Byte Strings.Byte.
From Stdlib Require Import Floats.SpecFloat.
From stdpp Require Import base numbers list.

Local Open Scope Z_scope.

(** Go's [len] of a slice, as an [int]. *)
Definition len {A} (l : list A) : Z := Z.of_nat (length l).

(** Go's builtin [copy(dst, src)]: copies [min(len dst, len src)] elements
    and returns that number together with the updated destination. *)
Definition copy {A} (dst src : list A) : nat * list A :=
  let n := Nat.min (length dst) (length src) in
  (n, take n src ++ drop n dst).

(** The two sentinel errors the buffer returns. *)
Inductive error : Type :=
| EOF            (* io.EOF *)
| ErrClosedPipe. (* io.ErrClosedPipe *)

Module AudioBuffer.

(** [type audioBuffer struct]; the mutex and the condition variable carry no
    data and are represented by the atomicity of the methods. *)
Record audioBuffer : Type := mkAudioBuffer {
  buf : list byte;
  closed : bool;
  capacity : Z;
  lowWater : Z;
  highWater : Z
}.

Definition with_buf (b : audioBuffer) (l : list byte) : audioBuffer :=
  {| buf := l; closed := closed b; capacity := capacity b;
     lowWater := lowWater b; highWater := highWater b |}.

Definition fill (b : audioBuffer) : Z := len (buf b).

(** Constants of [newAudioBuffer]. *)
Definition bytesPerSecond : Z := 48000 * 2 * 2.
Definition bufferCapacity : Z := Z.quot bytesPerSecond 2.
Definition lowWaterMark : Z := Z.quot bytesPerSecond 20.
Definition highWaterMark : Z := Z.quot (bufferCapacity * 4) 5.

Definition newAudioBuffer : audioBuffer :=
  {| buf := []; closed := false; capacity := bufferCapacity;
     lowWater := lowWaterMark; highWater := highWaterMark |}.

(** ** Read *)

Inductive ReadResult : Type :=
| ReadWaits
    (* the caller is parked in [b.cond.Wait()]: the loop condition
       [len(b.buf) < b.lowWater && !b.closed] holds *)
| ReadReturns (n : Z) (err : option error) (p' : list byte) (b' : audioBuffer).

Definition Read (b : audioBuffer) (p : list byte) : ReadResult :=
  if (len (buf b) <? lowWater b) && negb (closed b) then ReadWaits
  else if closed b && (len (buf b) =? 0) then ReadReturns 0 (Some EOF) p b
  else
    let '(n, p') := copy p (buf b) in
    ReadReturns (Z.of_nat n) None p' (with_buf b (drop n (buf b))).

(** ** Write *)

(** The discard loop
    [for len(b.buf)+len(data) > b.highWater { ... b.buf = b.buf[dropSize:] }].
    [None] means the loop is still running when the fuel is spent. *)
Fixpoint dropOldest (fuel : nat) (hw : Z) (dataLen : nat) (l : list byte)
  : option (list byte) :=
  if len l + Z.of_nat dataLen >? hw then
    match fuel with
    | O => None
    | S fuel' =>
        let dropSize := if (length l <? dataLen)%nat then length l else dataLen in
        dropOldest fuel' hw dataLen (drop dropSize l)
    end
  else Some l.

(** [Write] with a bound on the iterations of its loop; the result is the
    pair [(n, err)] and the buffer after the call. *)
Definition Write_fuel (fuel : nat) (b : audioBuffer) (data : list byte)
  : option (Z * option error * audioBuffer) :=
  if len data =? 0 then Some (0, None, b)
  else if closed b then Some (0, Some ErrClosedPipe, b)
  else
    match dropOldest fuel (highWater b) (length data) (buf b) with
    | None => None
    | Some l => Some (len data, None, with_buf b (l ++ data))
    end.

(** Each iteration that does not leave the loop either empties the slice or
    removes [len(data) > 0] bytes, so [len(b.buf) + 1] iterations decide the
    loop: [Write] runs it with that bound ([Write_fuel_decided] below shows
    that [None] here means the loop never exits). *)
Definition Write (b : audioBuffer) (data : list byte)
  : option (Z * option error * audioBuffer) :=
  Write_fuel (S (length (buf b))) b data.

(** ** Close *)

Definition Close (b : audioBuffer) : audioBuffer * option error :=
  (if closed b then b
   else {| buf := buf b; closed := true; capacity := capacity b;
           lowWater := lowWater b; highWater := highWater b |},
   None).

(** ** Sequences of calls

    A client of the buffer issues [Write], [Read] and [Close] calls.  Since
    every method holds the mutex for its whole body, an execution is a
    sequence of completed calls.  The history records, next to the buffer,
    the logical stream of bytes accepted by [Write] and the bytes handed out
    by [Read]. *)

Inductive op : Type :=
| OpWrite (data : list byte)
| OpRead (p : list byte)
| OpClose.

Record history : Type := mkHistory {
  state : audioBuffer;
  written : list byte;
  received : list byte
}.

Definition start : history :=
  {| state := newAudioBuffer; written := []; received := [] |}.

(** One completed call; [None] when the call does not return from the
    given state (a parked [Read], a [Write] whose loop does not exit). *)
Definition exec (h : history) (o : op) : option history :=
  match o with
  | OpWrite data =>
      match Write (state h) data with
      | Some (n, _, b') =>
          Some {| state := b'; written := written h ++ take (Z.to_nat n) data;
                  received := received h |}
      | None => None
      end
  | OpRead p =>
      match Read (state h) p with
      | ReadReturns n _ p' b' =>
          Some {| state := b'; written := written h;
                  received := received h ++ take (Z.to_nat n) p' |}
      | ReadWaits => None
      end
  | OpClose =>
      Some {| state := fst (Close (state h)); written := written h;
              received := received h |}
  end.

Fixpoint run (h : history) (ops : list op) : option history :=
  match ops with
  | [] => Some h
  | o :: ops' =>
      match exec h o with
      | Some h' => run h' ops'
      | None => None
      end
  end.

(** A consumer that calls [Read] with a scratch slice of [m] bytes until it
    sees [io.EOF], collecting what it was given (the shape of [io.Copy] and
    of the playback side).  [None]: a call parked, or the fuel ran out. *)
Fixpoint drain (fuel : nat) (m : nat) (b : audioBuffer) (acc : list byte)
  : option (list byte * audioBuffer) :=
  match fuel with
  | O => None
  | S fuel' =>
      match Read b (replicate m x00) with
      | ReadWaits => None
      | ReadReturns _ (Some _) _ b' => Some (acc, b')
      | ReadReturns n None p' b' => drain fuel' m b' (acc ++ take (Z.to_nat n) p')
      end
  end.

(** The state invariant carried along every sequence of calls: the marks
    are those of the constructor and the fill is within the high-water
    mark. *)
Definition marks_ok (b : audioBuffer) : Prop :=
  capacity b = bufferCapacity ∧ lowWater b = lowWaterMark ∧
  highWater b = highWaterMark ∧ fill b ≤ highWater b.

(** The producer side alone: consecutive [Write] calls. *)
Definition after_writes (b : audioBuffer) (ds : list (list byte)) : option audioBuffer :=
  foldl (λ ob d, match ob with
                 | Some b => match Write b d with
                             | Some (_, _, b') => Some b'
                             | None => None
                             end
                 | None => None
                 end) (Some b) ds.

(** Test data: a buffer whose low-water mark is 100 bytes, and a short
    session on the buffer of [newAudioBuffer]. *)
Definition low100 : audioBuffer :=
  {| buf := []; closed := false; capacity := 1000;
     lowWater := 100; highWater := 800 |}.

Definition burst_ops : list op :=
  [OpWrite [x01; x02; x03]; OpWrite []; OpClose; OpWrite [x04];
   OpRead [x00; x00]; OpClose].

Definition burst_history : history :=
  {| state := {| buf := [x03]; closed := true; capacity := 96000;
                 lowWater := 9600; highWater := 76800 |};
     written := [x01; x02; x03];
     received := [x01; x02] |}.

(** A burst that crosses the mark: 70000 bytes, then 10000 more. *)
Definition older : list byte := replicate (Z.to_nat 70000) x01.
Definition newer : list byte := replicate (Z.to_nat 10000) x02.
Definition discard_ops : list op := [OpWrite older; OpWrite newer].

Definition after_older : history :=
  {| state := with_buf newAudioBuffer older; written := older; received := [] |}.

Definition after_discard : history :=
  {| state := with_buf (with_buf newAudioBuffer older)
                (drop (length newer) older ++ newer);
     written := older ++ newer; received := [] |}.

End AudioBuffer.

(** * Sample conversion *)

Module Pcm.

(** [float32] values are IEEE 754 binary32 numbers: [spec_float] with a
    24-bit significand and [emax = 128]. *)
Definition prec32 : Z := 24.
Definition emax32 : Z := 128.
Definition mul32 : spec_float → spec_float → spec_float := SFmul prec32 emax32.

(** The constant [32767] converted to [float32]: [16776704 * 2^-9]. *)
Definition f32_32767 : spec_float := S754_finite false 16776704 (-9).
Definition f32_one : spec_float := S754_finite false 8388608 (-23).

(** The value of a finite float with its fraction discarded (truncation
    towards zero); [None] for NaN and the infinities. *)
Definition truncate (x : spec_float) : option Z :=
  match x with
  | S754_zero _ => Some 0
  | S754_finite s m e =>
      Some (cond_Zopp s (if 0 <=? e then Z.pos m * 2 ^ e else Z.pos m / 2 ^ (- e)))
  | S754_infinity _ | S754_nan => None
  end.

(** Two's complement value of the low [w] bits. *)
Definition wrap (w : Z) (z : Z) : Z := (z + 2 ^ (w - 1)) mod 2 ^ w - 2 ^ (w - 1).

Section Conversion.

(** Go leaves the result of converting a float that the integer type cannot
    represent to the implementation; [unrepresentable] is that choice. *)
Variable unrepresentable : spec_float → Z.

(** [intW(x)] for a [float32] [x]. *)
Definition to_int (w : Z) (x : spec_float) : Z :=
  match truncate x with
  | Some z =>
      if (- 2 ^ (w - 1) <=? z) && (z <? 2 ^ (w - 1)) then z
      else wrap w (unrepresentable x)
  | None => wrap w (unrepresentable x)
  end.

(** Step 5d of [recordAudioToWav]:
    [val := int32(decodedFloatBuf[i] * 32767)] and the three-way clamp. *)
Definition sample_to_pcm16 (sample : spec_float) : Z :=
  let val := to_int 32 (mul32 sample f32_32767) in
  if val >? 32767 then 32767
  else if val <? -32768 then -32768
  else wrap 16 val.

(** The microphone loop of the echo program: [v := int(sample * 32767)]
    with a 64-bit [int], clamped in place. *)
Definition sample_to_int (sample : spec_float) : Z :=
  let v := to_int 64 (mul32 sample f32_32767) in
  if v <? -32768 then -32768
  else if v >? 32767 then 32767
  else v.

End Conversion.

(** [-(1 + 2^-23)], the [float32] next below [-1.0]. *)
Definition just_below_minus_one : spec_float := S754_finite true 8388609 (-23).

(** One possible implementation choice: the most negative [int32] for
    every unrepresentable value. *)
Definition most_negative (_ : spec_float) : Z := - 2 ^ 31.

(** The sample [2.0]. *)
Definition f32_two : spec_float := S754_finite false 8388608 (-22).

End Pcm.

(** * The inbound decode loops *)

Module Player.
Import AudioBuffer.

Definition sampleRate : Z := 24000.
Definition channels : Z := 2.

Definition byte_of_Z (z : Z) : byte :=
  match Byte.of_N (Z.to_N (z mod 256)) with
  | Some b => b
  | None => x00
  end.

(** [binary.LittleEndian.PutUint16]. *)
Definition PutUint16 (v : Z) : list byte :=
  [byte_of_Z v; byte_of_Z (Z.shiftr v 8)].

Definition uint16 (s : Z) : Z := s mod 65536.

(** [toByteArray(buf, bytes)]: the error for a destination that is too
    short, else the count [bi] and the destination after the stores. *)
Definition toByteArray (buf : list Z) (bytes : list byte)
  : option (nat * list byte) :=
  if (length bytes <? length buf * 2)%nat then None
  else
    let out := flat_map (λ s, PutUint16 (uint16 s)) buf in
    Some (length out, out ++ drop (length out) bytes).

(** What [track.ReadRTP()] yields. *)
Inductive rtp : Type :=
| Packet (payload : list byte)
| ReadError.

(** Where the loop stands when the packets seen so far are consumed. *)
Inductive status : Type :=
| InReadRTP        (* still looping: suspended in [track.ReadRTP()] *)
| ReturnedNil      (* [ap.closed] was set *)
| ReturnedError    (* "failed to read RTP packet" *)
| InWrite.         (* [audioBuffer.Write] has not returned *)

Section Loop.

(** The codec is opaque: a decoder state and what one call makes of a
    payload. *)
Context {Decoder : Type}.

Record loop_state : Type := mkLoop {
  decoder : Decoder;
  audio : audioBuffer;
  delivered : list (list byte)   (* the slices accepted by [audioBuffer.Write] *)
}.

(** The body shared by the two players: [process] is the decode step
    with the conversion to bytes, [None] standing for the branches that log
    and [continue]. *)
Variable process : Decoder → list byte → Decoder * option (list byte).

Fixpoint decodeLoop (apClosed : bool) (st : loop_state) (track : list rtp)
  : status * loop_state :=
  match track with
  | [] => (if apClosed then ReturnedNil else InReadRTP, st)
  | ev :: rest =>
      if apClosed then (ReturnedNil, st)
      else
        match ev with
        | ReadError => (ReturnedError, st)
        | Packet payload =>
            match process (decoder st) payload with
            | (d', None) =>
                decodeLoop apClosed
                  {| decoder := d'; audio := audio st; delivered := delivered st |} rest
            | (d', Some pcm) =>
                match Write (audio st) pcm with
                | None =>
                    (InWrite, {| decoder := d'; audio := audio st;
                                 delivered := delivered st |})
                | Some (_, Some _, b') =>
                    decodeLoop apClosed
                      {| decoder := d'; audio := b'; delivered := delivered st |} rest
                | Some (_, None, b') =>
                    decodeLoop apClosed
                      {| decoder := d'; audio := b';
                         delivered := delivered st ++ [pcm] |} rest
                end
            end
        end
  end.

(** The decoder run over payloads on its own: its final state and the
    output of the payloads it accepted. *)
Fixpoint decoded (d : Decoder) (payloads : list (list byte))
  : Decoder * list (list byte) :=
  match payloads with
  | [] => (d, [])
  | payload :: rest =>
      match process d payload with
      | (d', None) => decoded d' rest
      | (d', Some pcm) => let '(d'', out) := decoded d' rest in (d'', pcm :: out)
      end
  end.


End Loop.

Section Players.

Context {Decoder : Type}.

(** [OpusV2AudioPlayer.WriteWebRTCTrack].  [decode d payload] is
    [decoder.Decode(p.Payload, pcmBuf)]: an error, or the samples
    [pcmBuf[:samplesPerChannel*2]].  The decoder stores into [pcmBuf], so it
    yields at most [len(pcmBuf)] samples; the slice expression would panic
    for more, and what [processV2] answers for a longer list stands for no
    behaviour of the program. *)
Variable decodeV2 : Decoder → list byte → Decoder * option (list Z).

Definition frameSizeMs : Z := 60.
Definition frameSize : Z := frameSizeMs * sampleRate / 1000.
Definition pcmBufLen : Z := frameSize * channels.
Definition byteBuf : list byte := replicate (Z.to_nat (pcmBufLen * 2)) x00.

Definition processV2 (d : Decoder) (payload : list byte)
  : Decoder * option (list byte) :=
  match decodeV2 d payload with
  | (d', None) => (d', None)
  | (d', Some pcm) =>
      match toByteArray pcm byteBuf with
      | None => (d', None)
      | Some (nBytes, bytes') => (d', Some (take nBytes bytes'))
      end
  end.

Definition OpusV2_WriteWebRTCTrack := decodeLoop processV2.

(** [OpusV3AudioPlayer.WriteWebRTCTrack].  [decodeV3 d payload] is
    [decoder.Decode(p.Payload, pcmBuf)] on the zeroed [pcmBuf]: an error, or
    the bytes it stored at the front of [pcmBuf]; the whole of [pcmBuf] is
    written. *)
Variable decodeV3 : Decoder → list byte → Decoder * option (list byte).

Definition pcmBufV3 : list byte := replicate (96 * 20 * 4) x00.

Definition processV3 (d : Decoder) (payload : list byte)
  : Decoder * option (list byte) :=
  match decodeV3 d payload with
  | (d', None) => (d', None)
  | (d', Some out) => (d', Some (snd (copy pcmBufV3 out)))
  end.

Definition OpusV3_WriteWebRTCTrack := decodeLoop processV3.

End Players.

(** A toy codec for tests: each byte of the payload is one sample, the
    empty payload is malformed, and the decoder counts the calls. *)
Definition toy_decode (d : nat) (payload : list byte) : nat * option (list Z) :=
  (S d,
   match payload with
   | [] => None
   | _ => Some (map (λ b, Z.of_N (Byte.to_N b)) payload)
   end).

Definition toy_start : @loop_state nat :=
  {| decoder := 0%nat; audio := newAudioBuffer; delivered := [] |}.

End Player.

(** * The session *)

Module Session.

(** [type OpenAIRealtimeAPI struct]; the connection and the channel are
    handles. *)
Record OpenAIRealtimeAPI : Type := mkAPI {
  Key : string;
  Model : string;
  Voice : string;
  ephemeralToken : string;
  peerConnection : option nat;
  dataChannel : option nat
}.

Definition NewOpenAIRealtimeAPI (key : string) : OpenAIRealtimeAPI :=
  {| Key := key; Model := "gpt-4o-realtime-preview-2024-12-17"%string; Voice := "verse"%string;
     ephemeralToken := EmptyString; peerConnection := None; dataChannel := None |}.

(** What the collaborators answer during one [Connect]. *)
Record replies : Type := mkReplies {
  tokenReply : option string;       (* the [client_secret.value] of a 200 reply *)
  newPeerConnection : option nat;   (* [api.NewPeerConnection] *)
  addTransceiver : bool;            (* [pc.AddTransceiverFromTrack] succeeds *)
  createOffer : option string;      (* the offer's SDP *)
  setLocalDescription : bool;
  answer : option string;           (* the body of the reply to the offer *)
  setRemoteDescription : bool;
  createDataChannel : option nat
}.

(** The calls made to the collaborators, in order. *)
Inductive call : Type :=
| TokenExchange (key model voice : string)
| NewPeerConnection
| SendOffer (sdp token : string)
| CreateDataChannel
| ClosePeerConnection (pc : nat)
| CloseDataChannel (dc : nat).

Inductive failure : Type :=
| TokenFailed
| PeerConnectionFailed
| OfferFailed
| DataChannelFailed.

Record outcome : Type := mkOutcome {
  api : OpenAIRealtimeAPI;
  err : option failure;
  calls : list call
}.

Definition with_token (c : OpenAIRealtimeAPI) (t : string) : OpenAIRealtimeAPI :=
  {| Key := Key c; Model := Model c; Voice := Voice c; ephemeralToken := t;
     peerConnection := peerConnection c; dataChannel := dataChannel c |}.

Definition with_pc (c : OpenAIRealtimeAPI) (pc : option nat) : OpenAIRealtimeAPI :=
  {| Key := Key c; Model := Model c; Voice := Voice c;
     ephemeralToken := ephemeralToken c;
     peerConnection := pc; dataChannel := dataChannel c |}.

Definition with_dc (c : OpenAIRealtimeAPI) (dc : option nat) : OpenAIRealtimeAPI :=
  {| Key := Key c; Model := Model c; Voice := Voice c;
     ephemeralToken := ephemeralToken c;
     peerConnection := peerConnection c; dataChannel := dc |}.

Definition createEphemeralToken (c : OpenAIRealtimeAPI) (w : replies)
  : option string * list call :=
  (match tokenReply w with
   | None => None
   | Some v => if String.eqb v EmptyString then None else Some v
   end,
   [TokenExchange (Key c) (Model c) (Voice c)]).

Definition setupPeerConnection (c : OpenAIRealtimeAPI) (w : replies)
  : OpenAIRealtimeAPI * bool * list call :=
  match newPeerConnection w with
  | None => (c, false, [NewPeerConnection])
  | Some pc =>
      if addTransceiver w then (with_pc c (Some pc), true, [NewPeerConnection])
      else (c, false, [NewPeerConnection])
  end.

Definition connectToRealtimeAPI (c : OpenAIRealtimeAPI) (w : replies)
  : bool * list call :=
  match createOffer w with
  | None => (false, [])
  | Some sdp =>
      if setLocalDescription w then
        match answer w with
        | None => (false, [SendOffer sdp (ephemeralToken c)])
        | Some _ => (setRemoteDescription w, [SendOffer sdp (ephemeralToken c)])
        end
      else (false, [])
  end.

Definition setupDataChannel (c : OpenAIRealtimeAPI) (w : replies)
  : OpenAIRealtimeAPI * bool * list call :=
  match createDataChannel w with
  | None => (c, false, [CreateDataChannel])
  | Some dc => (with_dc c (Some dc), true, [CreateDataChannel])
  end.

(** The clean-up of [Connect]: [c.peerConnection.Close()] and the reset. *)
Definition dropPeerConnection (c : OpenAIRealtimeAPI) : OpenAIRealtimeAPI * list call :=
  (with_pc c None,
   match peerConnection c with
   | Some pc => [ClosePeerConnection pc]
   | None => []
   end).

Definition Connect (c : OpenAIRealtimeAPI) (w : replies) : outcome :=
  let '(tok, c1, tr1) :=
    if String.eqb (ephemeralToken c) EmptyString then
      match createEphemeralToken c w with
      | (None, tr) => (None, c, tr)
      | (Some t, tr) => (Some t, with_token c t, tr)
      end
    else (Some (ephemeralToken c), c, [])
  in
  match tok with
  | None => {| api := c1; err := Some TokenFailed; calls := tr1 |}
  | Some _ =>
      match setupPeerConnection c1 w with
      | (c2, false, tr2) =>
          {| api := c2; err := Some PeerConnectionFailed; calls := tr1 ++ tr2 |}
      | (c2, true, tr2) =>
          match connectToRealtimeAPI c2 w with
          | (false, tr3) =>
              let '(c3, tr4) := dropPeerConnection c2 in
              {| api := c3; err := Some OfferFailed; calls := tr1 ++ tr2 ++ tr3 ++ tr4 |}
          | (true, tr3) =>
              match setupDataChannel c2 w with
              | (c3, false, tr4) =>
                  let '(c4, tr5) := dropPeerConnection c3 in
                  {| api := c4; err := Some DataChannelFailed;
                     calls := tr1 ++ tr2 ++ tr3 ++ tr4 ++ tr5 |}
              | (c3, true, tr4) =>
                  {| api := c3; err := None; calls := tr1 ++ tr2 ++ tr3 ++ tr4 |}
              end
          end
      end
  end.

Definition Disconnect (c : OpenAIRealtimeAPI) : OpenAIRealtimeAPI * list call :=
  let '(c1, tr1) :=
    match dataChannel c with
    | Some dc => (with_dc c None, [CloseDataChannel dc])
    | None => (c, [])
    end in
  let '(c2, tr2) :=
    match peerConnection c1 with
    | Some pc => (with_pc c1 None, [ClosePeerConnection pc])
    | None => (c1, [])
    end in
  (c2, tr1 ++ tr2).

Definition is_token_exchange (e : call) : bool :=
  match e with
  | TokenExchange _ _ _ => true
  | _ => false
  end.

(** Test data: collaborators that always succeed. *)
Definition all_fine : replies :=
  {| tokenReply := Some "ek_fresh"%string; newPeerConnection := Some 1%nat;
     addTransceiver := true; createOffer := Some "v=0 offer"%string;
     setLocalDescription := true; answer := Some "v=0 answer"%string;
     setRemoteDescription := true; createDataChannel := Some 2%nat |}.

End Session.

(** * Sample encodings *)

Module Encoding.
Import Player.

(** [int16ToLittleEndianBytes], also the body of [AudioWriter.WriteSamples]
    and of the conversion loop of [orig_WriteWebRTCTrack]:
    [data[2*i] = byte(s)], [data[2*i+1] = byte(s >> 8)]. *)
Definition int16ToLittleEndianBytes (samples : list Z) : list byte :=
  flat_map (λ s, [byte_of_Z s; byte_of_Z (Z.shiftr s 8)]) samples.

Definition Z_of_byte (b : byte) : Z := Z.of_N (Byte.to_N b).

(** Reading 16-bit little-endian samples back, as a player of the raw
    dump does. *)
Fixpoint fromLittleEndian (bytes : list byte) : list Z :=
  match bytes with
  | lo :: hi :: rest =>
      Pcm.wrap 16 (Z_of_byte lo + 256 * Z_of_byte hi) :: fromLittleEndian rest
  | _ => []
  end.

Definition is_int16 (s : Z) : Prop := -32768 ≤ s ≤ 32767.

(** The four bytes of an [int32], low byte first, as [float32ToBytes]
    stores them. *)
Definition le32 (z : Z) : list byte :=
  [byte_of_Z z; byte_of_Z (Z.shiftr z 8); byte_of_Z (Z.shiftr z 16);
   byte_of_Z (Z.shiftr z 24)].

Definition f32_neg_one : spec_float := S754_finite true 8388608 (-23).

(** The constant [2147483647] converted to [float32] is [2^31]. *)
Definition f32_2147483647 : spec_float := S754_finite false 8388608 8.

Section Float32ToBytes.

Variable unrepresentable : spec_float → Z.

(** One sample of [float32ToBytes] of the player: the clamp to [-1, 1],
    the scaling to the [int32] range, and the four bytes. *)
Definition float32ToBytes_sample (sample : spec_float) : list byte :=
  let sample :=
    if SFltb Pcm.f32_one sample then Pcm.f32_one
    else if SFltb sample f32_neg_one then f32_neg_one
    else sample in
  let intSample := Pcm.to_int unrepresentable 32 (Pcm.mul32 sample f32_2147483647) in
  le32 intSample.

Definition float32ToBytes (samples : list spec_float) : list byte :=
  flat_map float32ToBytes_sample samples.

End Float32ToBytes.

End Encoding.

(** * Diagnostics *)

Module Diagnostics.

(** [minMax]: the loop runs over every sample, the first included. *)
Definition minMax (samples : list Z) : Z * Z :=
  match samples with
  | [] => (0, 0)
  | s0 :: _ =>
      foldl (λ '(mn, mx) s,
               (if s <? mn then s else mn, if s >? mx then s else mx))
        (s0, s0) samples
  end.

End Diagnostics.

(** * The callback players *)

Module Callback.

Section Samples.

Context {A : Type}.
Variable zero : A.

(** [PortaudioPlayer.processAudio]: [n] is [len(out)]; the result is the
    new content of [out] and the new [bufferIndex], or [None] when the index
    expression [ap.buffer[ap.bufferIndex]] is out of range. *)
Fixpoint processAudio (buffer : list A) (bufferIndex : nat) (n : nat)
  : option (list A * nat) :=
  match n with
  | O => Some ([], bufferIndex)
  | S n' =>
      let idx := if (length buffer <=? bufferIndex)%nat then 0%nat else bufferIndex in
      match buffer !! idx with
      | None => None
      | Some x =>
          match processAudio buffer (S idx) n' with
          | Some (out, idx') => Some (x :: out, idx')
          | None => None
          end
      end
  end.

(** [for i := from; i < len(out); i++ { out[i] = 0 }]. *)
Definition zeroFrom (from : nat) (out : list A) : list A :=
  take from out ++ replicate (length out - from) zero.

(** The output callback of the echo program: a delayed frame when one is
    queued, silence otherwise. *)
Definition echoCallback (out : list A) (delayedFrame : option (list A)) : list A :=
  match delayedFrame with
  | Some frame => zeroFrom (length frame) (snd (copy out frame))
  | None => zeroFrom 0 out
  end.

(** The output callback of the loop-back program, with its explicit
    [copyLen]. *)
Definition loopbackCallback (out : list A) (queued : option (list A)) : list A :=
  match queued with
  | Some data =>
      let copyLen := if (length out <? length data)%nat then length out
                     else length data in
      zeroFrom copyLen (snd (copy out (take copyLen data)))
  | None => zeroFrom 0 out
  end.

End Samples.

End Callback.

(** * Sequences of session calls *)

Module SessionRuns.
Import Session.

Inductive request : Type :=
| DoConnect (w : replies)
| DoDisconnect.

(** The session after a sequence of [Connect] and [Disconnect] calls, and
    all the calls made to the collaborators. *)
Fixpoint session (c : OpenAIRealtimeAPI) (rs : list request)
  : OpenAIRealtimeAPI * list call :=
  match rs with
  | [] => (c, [])
  | DoConnect w :: rest =>
      let o := Connect c w in
      let '(c', tr) := session (api o) rest in
      (c', calls o ++ tr)
  | DoDisconnect :: rest =>
      let '(c1, tr1) := Disconnect c in
      let '(c', tr) := session c1 rest in
      (c', tr1 ++ tr)
  end.

Definition is_close_pc (e : call) : bool :=
  match e with
  | ClosePeerConnection _ => true
  | _ => false
  end.

(** Test data: the offer is refused. *)
Definition offer_refused : replies :=
  {| tokenReply := Some "ek_fresh"%string; newPeerConnection := Some 7%nat;
     addTransceiver := true; createOffer := Some "v=0 offer"%string;
     setLocalDescription := true; answer := None;
     setRemoteDescription := true; createDataChannel := Some 8%nat |}.

End SessionRuns.

(** * Facts about the jitter buffer *)

Module AudioBufferFacts.
Import AudioBuffer.

Lemma len_nonneg {A} (l : list A) : 0 ≤ len l.
Proof. unfold len. lia. Qed.

Lemma len_app {A} (l k : list A) : len (l ++ k) = len l + len k.
Proof. unfold len. rewrite length_app. lia. Qed.

Lemma len_nil_iff {A} (l : list A) : len l = 0 ↔ l = [].
Proof. unfold len. destruct l; simpl; split; intros; try done; lia. Qed.

(** ** The discard loop *)

Lemma dropOldest_fuel_mono fuel fuel' hw d l r :
  dropOldest fuel hw d l = Some r → (fuel ≤ fuel')%nat →
  dropOldest fuel' hw d l = Some r.
Proof.
  revert fuel' l. induction fuel as [|fuel IH]; intros fuel' l; simpl.
  - destruct (len l + Z.of_nat d >? hw) eqn:E; [done|].
    intros [= <-] _. destruct fuel'; simpl; by rewrite E.
  - destruct (len l + Z.of_nat d >? hw) eqn:E.
    + intros H Hle. destruct fuel' as [|fuel']; [lia|]. simpl. rewrite E.
      apply IH; [done | lia].
    + intros [= <-] _. destruct fuel'; simpl; by rewrite E.
Qed.

(** What the loop leaves is the old slice without some prefix, and the
    incoming bytes now fit under the mark. *)
Lemma dropOldest_result fuel hw d l r :
  dropOldest fuel hw d l = Some r →
  ∃ k, r = drop k l ∧ len r + Z.of_nat d ≤ hw.
Proof.
  revert l. induction fuel as [|fuel IH]; intros l; simpl;
    destruct (len l + Z.of_nat d >? hw) eqn:E; try done.
  - intros [= <-]. exists 0%nat. split; [done | lia].
  - intros H. destruct (IH _ H) as (k & -> & Hk).
    eexists. rewrite drop_drop. split; [done|]. by rewrite drop_drop in Hk.
  - intros [= <-]. exists 0%nat. split; [done | lia].
Qed.

(** The loop leaves within [len(b.buf) + 1] iterations when the data alone
    fits under the mark... *)
Lemma dropOldest_terminates fuel hw d l :
  (0 < d)%nat → Z.of_nat d ≤ hw → (length l < fuel)%nat →
  is_Some (dropOldest fuel hw d l).
Proof.
  intros Hd Hhw. revert l. induction fuel as [|fuel IH]; intros l Hl; [lia|].
  simpl. destruct (len l + Z.of_nat d >? hw) eqn:E; [|by eexists].
  destruct l as [|x l].
  { apply Z.gtb_lt in E. unfold len in E. cbn [length] in E. lia. }
  apply IH. rewrite length_drop.
  destruct (length (x :: l) <? d)%nat; cbn [length] in *; lia.
Qed.

(** ... and never when it does not: once the slice is empty, [dropSize] is
    0 and the condition stays true. *)
Lemma dropOldest_spins fuel hw d l :
  hw < Z.of_nat d → dropOldest fuel hw d l = None.
Proof.
  intros Hhw. revert l. induction fuel as [|fuel IH]; intros l; simpl.
  - pose proof (len_nonneg l).
    destruct (len l + Z.of_nat d >? hw) eqn:E; [done | lia].
  - pose proof (len_nonneg l).
    destruct (len l + Z.of_nat d >? hw) eqn:E; [apply IH | lia].
Qed.

(** ** Write *)

(** The bound used by [Write] decides the loop: a result found with any
    fuel is the result of [Write]... *)
Lemma Write_fuel_stable fuel b data r :
  Write_fuel fuel b data = Some r → Write b data = Some r.
Proof.
  unfold Write, Write_fuel.
  destruct (len data =? 0) eqn:E0; [done|].
  destruct (closed b); [done|].
  destruct (dropOldest fuel _ _ _) as [l|] eqn:El; [|done].
  intros [= <-].
  destruct (Z_lt_le_dec (highWater b) (Z.of_nat (length data))) as [Hlt|Hle].
  { by rewrite dropOldest_spins in El. }
  assert (0 < length data)%nat as Hd by (unfold len in E0; lia).
  destruct (dropOldest_terminates (S (length (buf b))) (highWater b)
              (length data) (buf b) Hd Hle ltac:(lia)) as [l' El'].
  rewrite El'.
  pose proof (dropOldest_fuel_mono _ (Nat.max fuel (S (length (buf b)))) _ _ _ _ El
                ltac:(lia)) as H1.
  pose proof (dropOldest_fuel_mono _ (Nat.max fuel (S (length (buf b)))) _ _ _ _ El'
                ltac:(lia)) as H2.
  congruence.
Qed.

(** ... so when [Write] finds none, the call returns with no fuel at all. *)
Lemma Write_fuel_decided b data :
  Write b data = None → ∀ fuel, Write_fuel fuel b data = None.
Proof.
  intros H fuel. destruct (Write_fuel fuel b data) as [r|] eqn:E; [|done].
  apply Write_fuel_stable in E. congruence.
Qed.

Lemma Write_cases b data :
  match Write b data with
  | None => data ≠ [] ∧ closed b = false ∧ highWater b < len data
  | Some (n, err, b') =>
      (data = [] ∧ n = 0 ∧ err = None ∧ b' = b) ∨
      (data ≠ [] ∧ closed b = true ∧ n = 0 ∧ err = Some ErrClosedPipe ∧ b' = b) ∨
      (data ≠ [] ∧ closed b = false ∧ n = len data ∧ err = None ∧
       len data ≤ highWater b ∧
       ∃ k, b' = with_buf b (drop k (buf b) ++ data) ∧
            len (drop k (buf b)) + len data ≤ highWater b)
  end.
Proof.
  unfold Write, Write_fuel.
  destruct (len data =? 0) eqn:E0.
  { left. apply Z.eqb_eq, len_nil_iff in E0. done. }
  assert (data ≠ []) as Hne.
  { intros ->. done. }
  destruct (closed b) eqn:Ec.
  { right; left. done. }
  destruct (Z_lt_le_dec (highWater b) (Z.of_nat (length data))) as [Hlt|Hle].
  { rewrite dropOldest_spins by done. done. }
  assert (0 < length data)%nat as Hd by (unfold len in E0; lia).
  destruct (dropOldest_terminates (S (length (buf b))) (highWater b)
              (length data) (buf b) Hd Hle ltac:(lia)) as [l El].
  rewrite El. right; right.
  destruct (dropOldest_result _ _ _ _ _ El) as (k & -> & Hk).
  repeat split; try done. exists k. done.
Qed.

(** A write that fits under the mark always returns. *)
Lemma Write_returns b data :
  len data ≤ highWater b → is_Some (Write b data).
Proof.
  intros H. pose proof (Write_cases b data) as Hc.
  destruct (Write b data); [by eexists | lia].
Qed.

(** [Write] does not return exactly when the data, not empty, alone
    exceeds the mark of an open buffer. *)
Lemma Write_spins_iff b data :
  Write b data = None ↔ data ≠ [] ∧ closed b = false ∧ highWater b < len data.
Proof.
  pose proof (Write_cases b data) as Hc. split.
  - intros H. by rewrite H in Hc.
  - intros (Hne & Hcl & Hhw). destruct (Write b data) as [[[n e] b']|]; [|done].
    destruct Hc as [(? & _)|[(_ & ? & _)|(_ & _ & _ & _ & ? & _)]];
      [done | congruence | lia].
Qed.

(** No discard: the arrival fits under the mark. *)
Lemma Write_fits b data :
  closed b = false → 0 < len data → fill b + len data ≤ highWater b →
  Write b data = Some (len data, None, with_buf b (buf b ++ data)).
Proof.
  unfold fill. intros Hc Hd Hf. unfold Write, Write_fuel. rewrite Hc.
  destruct (len data =? 0) eqn:E0; [lia|]. cbn [dropOldest].
  destruct (len (buf b) + Z.of_nat (length data) >? highWater b) eqn:E1;
    [unfold len in *; lia | done].
Qed.

(** The usual discard: the buffer was within the mark, holds at least as
    many bytes as arrive, and the arrival would cross the mark.  Exactly the
    [len data] oldest bytes go. *)
Lemma Write_discards_oldest b data :
  closed b = false → 0 < len data ≤ fill b →
  fill b ≤ highWater b < fill b + len data →
  Write b data =
    Some (len data, None, with_buf b (drop (length data) (buf b) ++ data)).
Proof.
  unfold fill. intros Hc Hd Hf. unfold Write, Write_fuel. rewrite Hc.
  destruct (len data =? 0) eqn:E0; [lia|]. cbn [dropOldest].
  destruct (len (buf b) + Z.of_nat (length data) >? highWater b) eqn:E1;
    [|unfold len in *; lia].
  destruct (length (buf b) <? length data)%nat eqn:E2.
  { apply Nat.ltb_lt in E2. unfold len in *. lia. }
  assert ((len (drop (length data) (buf b)) + Z.of_nat (length data) >? highWater b)
          = false) as E3.
  { apply Nat.ltb_ge in E2. rewrite Z.gtb_ltb. apply Z.ltb_ge.
    unfold len in *. rewrite length_drop. lia. }
  destruct (length (buf b)); cbn [dropOldest]; by rewrite E3.
Qed.

(** ** Read *)

Lemma with_buf_id b : with_buf b (buf b) = b.
Proof. by destruct b. Qed.

Lemma Read_cases b p :
  match Read b p with
  | ReadWaits => fill b < lowWater b ∧ closed b = false
  | ReadReturns n err p' b' =>
      (lowWater b ≤ fill b ∨ closed b = true) ∧
      n = Z.min (len p) (fill b) ∧
      p' = take (Z.to_nat n) (buf b) ++ drop (Z.to_nat n) p ∧
      b' = with_buf b (drop (Z.to_nat n) (buf b)) ∧
      (err = Some EOF ∧ closed b = true ∧ buf b = [] ∨ err = None ∧ (closed b = false ∨ buf b ≠ []))
  end.
Proof.
  unfold Read, fill, copy.
  destruct (len (buf b) <? lowWater b) eqn:El, (closed b) eqn:Ec; simpl.
  2: { split; [lia | done]. }
  all: destruct (len (buf b) =? 0) eqn:E0; simpl.
  all: try (apply Z.eqb_eq in E0; pose proof (len_nonneg p);
            rewrite Z.min_r by lia; change (Z.to_nat 0) with 0%nat;
            rewrite !drop_0, with_buf_id; pose proof (proj1 (len_nil_iff _) E0);
            repeat split; auto; fail).
  all: rewrite Nat2Z.id;
       (split; [first [by right | left; lia] |]);
       (split; [unfold len; lia |]);
       repeat split; auto.
  all: right; split; [done|].
  all: first [by left | right; intros H; rewrite H in E0; done].
Qed.

(** ** What the calls keep and change *)

Lemma Write_config b data n err b' :
  Write b data = Some (n, err, b') →
  capacity b' = capacity b ∧ lowWater b' = lowWater b ∧
  highWater b' = highWater b ∧ closed b' = closed b.
Proof.
  intros H. pose proof (Write_cases b data) as Hc. rewrite H in Hc.
  destruct Hc as [(_ & _ & _ & ->)|[(_ & _ & _ & _ & ->)|(_ & _ & _ & _ & _ & k & -> & _)]];
    done.
Qed.

Lemma Write_fill b data n err b' :
  Write b data = Some (n, err, b') → fill b ≤ highWater b →
  fill b' ≤ highWater b.
Proof.
  intros H Hb. pose proof (Write_cases b data) as Hc. rewrite H in Hc.
  destruct Hc as [(_ & _ & _ & ->)|[(_ & _ & _ & _ & ->)|(_ & _ & _ & _ & _ & k & -> & Hk)]];
    try done.
  unfold fill. simpl. rewrite len_app. done.
Qed.

Lemma Read_config b p n err p' b' :
  Read b p = ReadReturns n err p' b' →
  capacity b' = capacity b ∧ lowWater b' = lowWater b ∧
  highWater b' = highWater b ∧ closed b' = closed b.
Proof.
  intros H. pose proof (Read_cases b p) as Hc. rewrite H in Hc.
  destruct Hc as (_ & _ & _ & -> & _). done.
Qed.

Lemma Read_fill b p n err p' b' :
  Read b p = ReadReturns n err p' b' → fill b' ≤ fill b.
Proof.
  intros H. pose proof (Read_cases b p) as Hc. rewrite H in Hc.
  destruct Hc as (_ & _ & _ & -> & _). unfold fill, len. simpl.
  rewrite length_drop. lia.
Qed.

Lemma exec_marks_ok h o h' :
  marks_ok (state h) → exec h o = Some h' → marks_ok (state h').
Proof.
  intros (Hc & Hl & Hh & Hf). destruct o as [data|p|]; simpl.
  - destruct (Write (state h) data) as [[[n err] b']|] eqn:E; [|done].
    intros [= <-]. simpl.
    destruct (Write_config _ _ _ _ _ E) as (Hc' & Hl' & Hh' & _).
    pose proof (Write_fill _ _ _ _ _ E Hf).
    unfold marks_ok. rewrite Hc', Hl', Hh'. done.
  - destruct (Read (state h) p) as [|n err p' b'] eqn:E; [done|].
    intros [= <-]. simpl.
    destruct (Read_config _ _ _ _ _ _ E) as (Hc' & Hl' & Hh' & _).
    pose proof (Read_fill _ _ _ _ _ _ E).
    unfold marks_ok. rewrite Hc', Hl', Hh'.
    repeat split; try done. lia.
  - intros [= <-]. simpl. unfold marks_ok, fill.
    destruct (closed (state h)); simpl; done.
Qed.

Lemma run_marks_ok ops h h' :
  marks_ok (state h) → run h ops = Some h' → marks_ok (state h').
Proof.
  revert h. induction ops as [|o ops IH]; intros h Hh; simpl.
  - by intros [= <-].
  - destruct (exec h o) as [h1|] eqn:E; [|done].
    apply IH. by eapply exec_marks_ok.
Qed.

Lemma start_marks_ok : marks_ok (state start).
Proof. repeat split. by vm_compute. Qed.

(** The retained bytes are the tail of the logical stream. *)
Lemma exec_suffix h o h' :
  buf (state h) `suffix_of` written h → exec h o = Some h' →
  buf (state h') `suffix_of` written h'.
Proof.
  intros Hs. destruct o as [data|p|]; simpl.
  - pose proof (Write_cases (state h) data) as Hc.
    destruct (Write (state h) data) as [[[n err] b']|]; [|done].
    intros [= <-]. simpl.
    destruct Hc as [(-> & -> & _ & ->)|[(_ & _ & -> & _ & ->)|(_ & _ & -> & _ & _ & k & -> & _)]].
    + by rewrite app_nil_r.
    + simpl. by rewrite app_nil_r.
    + simpl. unfold len. rewrite Nat2Z.id, firstn_all.
      apply suffix_app. etrans; [apply suffix_drop | done].
  - pose proof (Read_cases (state h) p) as Hc.
    destruct (Read (state h) p) as [|n err p' b']; [done|].
    intros [= <-]. simpl. destruct Hc as (_ & _ & _ & -> & _). simpl.
    etrans; [apply suffix_drop | done].
  - intros [= <-]. simpl. by destruct (closed (state h)).
Qed.

Lemma run_suffix ops h h' :
  buf (state h) `suffix_of` written h → run h ops = Some h' →
  buf (state h') `suffix_of` written h'.
Proof.
  revert h. induction ops as [|o ops IH]; intros h Hh; simpl.
  - by intros [= <-].
  - destruct (exec h o) as [h1|] eqn:E; [|done].
    apply IH. by eapply exec_suffix.
Qed.

(** ** A burst that crosses the mark *)

Example burst_run : run start burst_ops = Some burst_history.
Proof. reflexivity. Qed.

Lemma len_older : len older = 70000.
Proof. unfold older, len. rewrite length_replicate. lia. Qed.

Lemma len_newer : len newer = 10000.
Proof. unfold newer, len. rewrite length_replicate. lia. Qed.

Lemma Write_older :
  Write newAudioBuffer older = Some (len older, None, with_buf newAudioBuffer older).
Proof.
  apply (Write_fits newAudioBuffer older); [reflexivity | rewrite len_older; lia |].
  unfold fill. cbn [buf highWater newAudioBuffer].
  change highWaterMark with 76800. change (len []) with 0. rewrite len_older. lia.
Qed.

Lemma Write_newer :
  Write (state after_older) newer = Some (len newer, None, state after_discard).
Proof.
  apply (Write_discards_oldest (with_buf newAudioBuffer older) newer);
    unfold fill; cbn [buf with_buf highWater newAudioBuffer closed];
    [reflexivity | rewrite len_older, len_newer; lia |].
  change highWaterMark with 76800. rewrite len_older, len_newer. lia.
Qed.

Lemma take_len {A} (l : list A) : take (Z.to_nat (len l)) l = l.
Proof. unfold len. by rewrite Nat2Z.id, firstn_all. Qed.

Lemma run_older : run start [OpWrite older] = Some after_older.
Proof.
  cbn [run exec state start written received]. rewrite Write_older.
  by rewrite take_len.
Qed.

Lemma run_discard_ops : run start discard_ops = Some after_discard.
Proof.
  unfold discard_ops. cbn [run exec state start written received].
  rewrite Write_older. cbn [state written received].
  rewrite take_len.
  change (Write (with_buf newAudioBuffer older) newer)
    with (Write (state after_older) newer).
  rewrite Write_newer. by rewrite take_len.
Qed.

Lemma dropOldest_stays fuel hw d l :
  (len l + Z.of_nat d >? hw) = false → dropOldest fuel hw d l = Some l.
Proof. intros E. destruct fuel; simpl; by rewrite E. Qed.

Lemma dropOldest_half fuel hw d l r :
  dropOldest fuel hw d l = Some r → hw < len l + Z.of_nat d →
  hw < 2 * (len r + Z.of_nat d).
Proof.
  revert l. induction fuel as [|fuel IH]; intros l; simpl;
    destruct (len l + Z.of_nat d >? hw) eqn:E; try done; try lia.
  intros H Hover.
  set (k := if (length l <? d)%nat then length l else d) in *.
  destruct (len (drop k l) + Z.of_nat d >? hw) eqn:E'.
  - apply (IH _ H). lia.
  - rewrite dropOldest_stays in H by done. injection H as <-.
    unfold len in *. rewrite length_drop in *. subst k.
    destruct (length l <? d)%nat eqn:Ed.
    + apply Nat.ltb_lt in Ed. lia.
    + apply Nat.ltb_ge in Ed. lia.
Qed.

(** A write that had to discard leaves more than half the high-water
    mark. *)
Lemma Write_discard_half b data n b' :
  closed b = false → data ≠ [] →
  Write b data = Some (n, None, b') →
  highWater b < fill b + len data →
  highWater b < 2 * fill b'.
Proof.
  intros Hc Hne HW Hover.
  unfold Write, Write_fuel in HW. rewrite Hc in HW.
  destruct (len data =? 0) eqn:E0.
  { apply Z.eqb_eq, len_nil_iff in E0. done. }
  destruct (dropOldest _ _ _ _) as [l|] eqn:El; [|done].
  injection HW as <- <-. unfold fill. cbn [buf with_buf]. rewrite len_app.
  apply dropOldest_half in El; unfold fill, len in *; lia.
Qed.

(** A [Read] into a slice that can hold the whole content, once the
    low-water mark is reached: it returns all of it, in order, and empties
    the buffer. *)
Lemma Read_all b p :
  lowWater b ≤ fill b → buf b ≠ [] → fill b ≤ len p →
  Read b p =
    ReadReturns (fill b) None (buf b ++ drop (length (buf b)) p) (with_buf b []).
Proof.
  unfold fill. intros Hlow Hne Hp. unfold Read, copy.
  destruct (len (buf b) <? lowWater b) eqn:E1; [lia|]. cbn [andb].
  destruct (len (buf b) =? 0) eqn:E0.
  { apply Z.eqb_eq, len_nil_iff in E0. done. }
  rewrite andb_false_r.
  rewrite Nat.min_r by (unfold len in Hp; lia).
  by rewrite firstn_all, drop_all.
Qed.

Lemma fill_after_discard : fill (state after_discard) = 70000.
Proof.
  unfold fill. cbn [state after_discard buf with_buf]. rewrite len_app.
  pose proof len_older. pose proof len_newer. unfold len in *.
  rewrite length_drop. lia.
Qed.

(** ** The claims on the jitter buffer *)

(** C1 (watermark invariant).  The constructor sets
    [lowWater < highWater < capacity].  After every sequence of completed
    [Write], [Read] and [Close] calls on the fresh buffer the marks are
    still so ordered and [0 ≤ fill ≤ capacity]; and a [Write] that returns
    from such a state although [fill + len data] was above the high-water
    mark leaves [fill ≤ highWater]. *)
Theorem watermark_invariant (ops : list op) (h : history) :
  run start ops = Some h →
  (lowWater newAudioBuffer < highWater newAudioBuffer < capacity newAudioBuffer) ∧
  (lowWater (state h) < highWater (state h) < capacity (state h)) ∧
  (0 ≤ fill (state h) ≤ capacity (state h)) ∧
  (∀ data n err b',
      Write (state h) data = Some (n, err, b') →
      highWater (state h) < fill (state h) + len data →
      fill b' ≤ highWater b').
Proof.
  intros Hrun.
  destruct (run_marks_ok _ _ _ start_marks_ok Hrun) as (Hc & Hl & Hh & Hf).
  split; [done|]. split; [by rewrite Hc, Hl, Hh|].
  split.
  { split; [apply len_nonneg|]. rewrite Hc. rewrite Hh in Hf.
    transitivity highWaterMark; done. }
  intros data n err b' HW _.
  destruct (Write_config _ _ _ _ _ HW) as (_ & _ & -> & _).
  by eapply Write_fill.
Qed.

Lemma watermark_invariant_witness :
  run start [OpWrite older] = Some after_older ∧
  highWater (state after_older) < fill (state after_older) + len newer ∧
  0 ≤ fill (state after_older) ≤ capacity (state after_older) ∧
  ∃ b', Write (state after_older) newer = Some (len newer, None, b') ∧
        fill b' ≤ highWater b'.
Proof.
  pose proof run_older as Hrun.
  destruct (watermark_invariant [OpWrite older] after_older Hrun)
    as (_ & _ & Hfill & Hdiscard).
  assert (highWater (state after_older) < fill (state after_older) + len newer) as Hover.
  { unfold fill. cbn [state after_older buf with_buf highWater newAudioBuffer].
    change highWaterMark with 76800. rewrite len_older, len_newer. lia. }
  split; [exact Hrun|]. split; [exact Hover|]. split; [exact Hfill|].
  eexists. split; [exact Write_newer|].
  exact (Hdiscard newer _ _ _ Write_newer Hover).
Defined.

(** C2 (the write always terminates): fails on the code.  On the fresh
    buffer a write of 76801 bytes, one more than the high-water mark, never
    leaves the discard loop: whatever the number of iterations allowed, the
    call has not returned. *)
Theorem Write_oversized_never_returns (fuel : nat) :
  Write_fuel fuel newAudioBuffer (replicate (Z.to_nat 76801) x00) = None.
Proof.
  unfold Write_fuel. unfold len at 1. rewrite length_replicate.
  change (Z.of_nat (Z.to_nat 76801) =? 0) with false. cbn [closed newAudioBuffer].
  rewrite dropOldest_spins; [done|].
  rewrite Z2Nat.id by done. by vm_compute.
Qed.

(** C3 (FIFO after discard).  After every sequence of completed calls the
    retained bytes are a suffix of the logical stream of the bytes written
    so far.  A further write keeps the old bytes without some prefix,
    followed by the new bytes, which is again a suffix of the stream; when
    that write had to discard, a read into a slice that can hold the retained
    bytes returns at once with exactly these bytes, in their order, and
    leaves the buffer empty.  In general a read that returns has copied
    [min (len p) fill] bytes, the front of the retained bytes in their order,
    and keeps the rest; once the low-water mark is reached, a read into a
    slice that is large enough returns everything. *)
Theorem fifo_after_discard (ops : list op) (h : history) :
  run start ops = Some h →
  buf (state h) `suffix_of` written h ∧
  (∀ data n b',
      Write (state h) data = Some (n, None, b') →
      (∃ k, buf b' = drop k (buf (state h)) ++ data) ∧
      buf b' `suffix_of` (written h ++ data) ∧
      (highWater (state h) < fill (state h) + len data →
       ∀ p, fill b' ≤ len p →
         ∃ p' b'',
           Read b' p = ReadReturns (fill b') None p' b'' ∧
           take (length (buf b')) p' = buf b' ∧
           buf b'' = [])) ∧
  (∀ p n p' b',
      Read (state h) p = ReadReturns n None p' b' →
      n = Z.min (len p) (fill (state h)) ∧
      take (Z.to_nat n) p' = take (Z.to_nat n) (buf (state h)) ∧
      take (Z.to_nat n) p' ++ buf b' = buf (state h)) ∧
  (lowWater (state h) ≤ fill (state h) →
   ∀ p, fill (state h) ≤ len p →
     ∃ p' b',
       Read (state h) p = ReadReturns (fill (state h)) None p' b' ∧
       take (length (buf (state h))) p' = buf (state h) ∧
       buf b' = []).
Proof.
  intros Hrun.
  assert (buf (state h) `suffix_of` written h) as Hs.
  { eapply run_suffix; [|exact Hrun]. simpl. done. }
  destruct (run_marks_ok _ _ _ start_marks_ok Hrun) as (Hcap & Hlow & Hhigh & Hfill).
  assert (∀ b p, lowWater b = lowWaterMark → lowWater b ≤ fill b → fill b ≤ len p →
            ∃ p' b', Read b p = ReadReturns (fill b) None p' b' ∧
                     take (length (buf b)) p' = buf b ∧ buf b' = []) as Hall.
  { intros b p Hl Hreach Hp.
    assert (buf b ≠ []) as Hne.
    { intros E. unfold fill in Hreach. rewrite E, Hl in Hreach.
      change lowWaterMark with 9600 in Hreach. change (len []) with 0 in Hreach.
      lia. }
    eexists _, _. split; [by apply Read_all|]. split; [|done].
    by rewrite take_app_length. }
  split; [done|]. split; [|split].
  - intros data n b' HW. pose proof (Write_cases (state h) data) as Hc.
    rewrite HW in Hc.
    destruct Hc as [(-> & _ & _ & ->)|[(_ & _ & _ & ? & _)|(Hne & Hcl & _ & _ & _ & k & Hb' & _)]];
      [|done|].
    + rewrite app_nil_r. split; [|split; [done|]].
      * exists 0%nat. by rewrite app_nil_r.
      * intros Hover. change (len []) with 0 in Hover. lia.
    + split; [|split].
      * exists k. by rewrite Hb'.
      * rewrite Hb'. simpl. apply suffix_app. etrans; [apply suffix_drop | done].
      * intros Hover p Hp.
        pose proof (Write_discard_half _ _ _ _ Hcl Hne HW Hover) as Hhalf.
        destruct (Write_config _ _ _ _ _ HW) as (_ & Hl' & _).
        apply Hall; [congruence | | done].
        rewrite Hl', Hlow. rewrite Hhigh in Hhalf.
        change lowWaterMark with 9600. change highWaterMark with 76800 in Hhalf.
        lia.
  - intros p n p' b' HR. pose proof (Read_cases (state h) p) as Hc.
    rewrite HR in Hc. destruct Hc as (_ & Hn & -> & -> & _). simpl.
    assert (length (take (Z.to_nat n) (buf (state h))) = Z.to_nat n) as Hlen.
    { rewrite length_take. unfold fill, len in Hn. lia. }
    rewrite take_app_length' by done.
    split; [done|]. split; [done|]. apply take_drop.
  - intros Hreach p Hp. by apply Hall.
Qed.

Lemma fifo_after_discard_witness :
  run start discard_ops = Some after_discard ∧
  buf (state after_discard) = drop (length newer) older ++ newer ∧
  buf (state after_discard) `suffix_of` (older ++ newer) ∧
  ∃ p' b'',
    Read (state after_discard) (replicate (Z.to_nat 70000) x00) =
      ReadReturns 70000 None p' b'' ∧
    take (length (buf (state after_discard))) p' = drop (length newer) older ++ newer ∧
    buf b'' = [].
Proof.
  pose proof run_discard_ops as Hrun.
  split; [exact Hrun|]. split; [reflexivity|].
  split; [exact (proj1 (fifo_after_discard discard_ops after_discard Hrun))|].
  destruct (fifo_after_discard [OpWrite older] after_older run_older)
    as (_ & Hwrite & _).
  destruct (Hwrite newer _ _ Write_newer) as (_ & _ & Hread).
  assert (highWater (state after_older) < fill (state after_older) + len newer) as Hover.
  { unfold fill. cbn [state after_older buf with_buf highWater newAudioBuffer].
    change highWaterMark with 76800. rewrite len_older, len_newer. lia. }
  destruct (Hread Hover (replicate (Z.to_nat 70000) x00)) as (p' & b'' & HR & Hp' & Hb'').
  { rewrite fill_after_discard. unfold len. rewrite length_replicate. lia. }
  rewrite fill_after_discard in HR.
  exists p', b''. split; [exact HR|]. split; [exact Hp' | exact Hb''].
Defined.

(** C4 (blocking-read threshold).  [Read] stays parked exactly while
    [fill < lowWater] and the buffer is open.  When it returns, the
    threshold was reached or the buffer is closed, and it has copied
    [min (len p) fill] bytes, the front of the buffer, into the front of the
    caller's slice: fewer than [len p] when fewer are there. *)
Theorem read_release_threshold (b : audioBuffer) (p : list byte) :
  (Read b p = ReadWaits ↔ fill b < lowWater b ∧ closed b = false) ∧
  (∀ n err p' b',
      Read b p = ReadReturns n err p' b' →
      (lowWater b ≤ fill b ∨ closed b = true) ∧
      n = Z.min (len p) (fill b) ∧
      p' = take (Z.to_nat n) (buf b) ++ drop (Z.to_nat n) p ∧
      buf b' = drop (Z.to_nat n) (buf b)).
Proof.
  pose proof (Read_cases b p) as Hc. split.
  - split.
    + intros H. by rewrite H in Hc.
    + intros [Hf Hcl]. destruct (Read b p) as [|n err p' b']; [done|].
      destruct Hc as ([?|?] & _); [lia | congruence].
  - intros n err p' b' H. rewrite H in Hc.
    destruct Hc as (? & ? & ? & -> & _). done.
Qed.

Lemma read_release_threshold_witness :
  ∃ b1 b2,
    after_writes low100 [replicate 60 x01] = Some b1 ∧
    after_writes low100 [replicate 60 x01; replicate 60 x02] = Some b2 ∧
    Read b1 (replicate 200 x00) = ReadWaits ∧
    ∃ p' b', Read b2 (replicate 200 x00) = ReadReturns 120 None p' b' ∧
             buf b' = [].
Proof.
  eexists _, _. split; [vm_compute; reflexivity|].
  split; [vm_compute; reflexivity|].
  split.
  - apply (proj1 (read_release_threshold _ _)). vm_compute. done.
  - eexists _, _. split; vm_compute; reflexivity.
Defined.

(** ** Close *)

Lemma Close_closed b : closed (fst (Close b)) = true.
Proof. unfold Close. simpl. by destruct (closed b) eqn:E. Qed.

Lemma Close_buf b : buf (fst (Close b)) = buf b.
Proof. unfold Close. simpl. by destruct (closed b). Qed.

(** On a closed buffer the consumer loop collects the whole content, in
    order, and then sees the end of the stream. *)
Lemma drain_closed fuel m b acc :
  closed b = true → (0 < m)%nat → (length (buf b) < fuel)%nat →
  drain fuel m b acc = Some (acc ++ buf b, with_buf b []).
Proof.
  intros Hc Hm. revert b acc Hc.
  induction fuel as [|fuel IH]; intros b acc Hc Hl; [lia|].
  simpl. unfold Read, copy. rewrite Hc, andb_false_r. simpl.
  destruct (len (buf b) =? 0) eqn:E0.
  - apply Z.eqb_eq, len_nil_iff in E0. rewrite E0, app_nil_r.
    rewrite <- E0. by rewrite with_buf_id.
  - rewrite Nat2Z.id, length_replicate.
    assert (0 < length (buf b))%nat as Hpos by (unfold len in E0; lia).
    set (n := (m `min` length (buf b))%nat).
    assert (length (take n (buf b)) = n) as Hlen.
    { rewrite length_take. lia. }
    rewrite take_app_length' by done.
    rewrite IH.
    + simpl. rewrite <- app_assoc, take_drop. done.
    + done.
    + simpl. rewrite length_drop. lia.
Qed.

(** C5 (close drains, then ends).  [Close] is idempotent; after it no
    reader stays parked, whatever the fill; a [Read] into a non-empty slice
    on the closed buffer holding [k > 0] bytes returns the first
    [min (len p) k] of them without an error; the end of the stream is
    signalled only by a closed and empty buffer; and a consumer reading
    [m > 0] bytes at a time receives exactly the [k] bytes, in order, before
    the call that reports the end of the stream. *)
Theorem close_drains_then_ends (b : audioBuffer) (p : list byte) (m : nat) :
  buf b ≠ [] → p ≠ [] → (0 < m)%nat →
  let bc := fst (Close b) in
  Close bc = (bc, None) ∧
  (∀ q, Read bc q ≠ ReadWaits) ∧
  (∃ p' b', Read bc p = ReadReturns (Z.min (len p) (fill b)) None p' b' ∧
            0 < Z.min (len p) (fill b) ∧
            take (Z.to_nat (Z.min (len p) (fill b))) p' ++ buf b' = buf b ∧
            closed b' = true) ∧
  (∀ b0 q n q' b', Read b0 q = ReadReturns n (Some EOF) q' b' →
                   closed b0 = true ∧ buf b0 = [] ∧ n = 0) ∧
  (∃ b', drain (S (length (buf b))) m bc [] = Some (buf b, b') ∧
         buf b' = [] ∧
         ∀ q, Read b' q = ReadReturns 0 (Some EOF) q b').
Proof.
  intros Hne Hp Hm bc.
  assert (closed bc = true) as Hcl by apply Close_closed.
  assert (buf bc = buf b) as Hbuf by apply Close_buf.
  split; [|split; [|split; [|split]]].
  - unfold Close. by rewrite Hcl.
  - intros q H. pose proof (Read_cases bc q) as Hc. rewrite H in Hc.
    destruct Hc. congruence.
  - pose proof (Read_cases bc p) as Hc.
    destruct (Read bc p) as [|n err p' b'] eqn:E.
    { destruct Hc. congruence. }
    destruct Hc as (_ & Hn & Hp' & Hb' & He).
    unfold fill in *. rewrite Hbuf in *.
    destruct He as [(_ & _ & ?)|(-> & _)]; [done|].
    exists p', b'. subst n. split; [done|].
    assert (0 < len p) by (destruct p; [done | unfold len; simpl; lia]).
    assert (0 < len (buf b)) by (destruct (buf b); [done | unfold len; simpl; lia]).
    split; [lia|]. split.
    + rewrite Hp', Hb'. simpl.
      rewrite take_app_length'; [apply take_drop|].
      rewrite length_take. unfold len. lia.
    + rewrite Hb'. done.
  - intros b0 q n q' b' H. pose proof (Read_cases b0 q) as Hc. rewrite H in Hc.
    destruct Hc as (_ & Hn & _ & _ & [(_ & ? & Hnil)|(? & _)]); [|done].
    repeat split; try done. rewrite Hn. unfold fill. rewrite Hnil.
    pose proof (len_nonneg q). unfold len at 2. simpl. lia.
  - exists (with_buf bc []). rewrite drain_closed; try done; [|rewrite Hbuf; lia].
    rewrite Hbuf. split; [done|]. split; [done|].
    intros q. unfold Read. simpl. rewrite Hcl. simpl.
    by rewrite andb_false_r.
Qed.

Lemma close_drains_then_ends_witness :
  ∃ b', drain 51 20 (fst (Close (with_buf newAudioBuffer (replicate 50 x07)))) [] =
          Some (replicate 50 x07, b') ∧
        buf b' = [].
Proof.
  destruct (close_drains_then_ends (with_buf newAudioBuffer (replicate 50 x07))
              [x00] 20 ltac:(done) ltac:(done) ltac:(lia))
    as (_ & _ & _ & _ & b' & Hd & Hnil & _).
  exists b'. split; [exact Hd | exact Hnil].
Defined.

(** C6 (write after close), as the code has it: a write of at least one
    byte to a closed buffer returns [(0, io.ErrClosedPipe)] and leaves the
    buffer as it was. *)
Theorem Write_closed_fails (b : audioBuffer) (data : list byte) :
  closed b = true → data ≠ [] →
  Write b data = Some (0, Some ErrClosedPipe, b).
Proof.
  intros Hc Hd. pose proof (Write_cases b data) as H.
  destruct (Write b data) as [[[n err] b']|].
  - destruct H as [(? & _)|[(_ & _ & -> & -> & ->)|(_ & ? & _)]];
      [done | done | congruence].
  - destruct H as (_ & ? & _). congruence.
Qed.

Lemma Write_closed_fails_witness :
  Write (fst (Close newAudioBuffer)) [x2a] =
    Some (0, Some ErrClosedPipe, fst (Close newAudioBuffer)).
Proof. apply Write_closed_fails; [reflexivity | done]. Defined.

(** C6 as stated does not hold: the empty write to a closed buffer reports
    no failure. *)
Lemma Write_closed_empty_succeeds :
  closed (fst (Close newAudioBuffer)) = true ∧
  Write (fst (Close newAudioBuffer)) [] ≠
    Some (0, Some ErrClosedPipe, fst (Close newAudioBuffer)) ∧
  Write (fst (Close newAudioBuffer)) [] = Some (0, None, fst (Close newAudioBuffer)).
Proof. split; [reflexivity|]. split; [|reflexivity]. vm_compute. congruence. Qed.

(** C10 (empty write).  A write of no bytes returns [(0, nil)] before the
    lock is taken and the closed flag is looked at: for every buffer, open
    or closed, and the buffer is unchanged. *)
Theorem Write_empty (fuel : nat) (b : audioBuffer) :
  Write_fuel fuel b [] = Some (0, None, b) ∧
  Write b [] = Some (0, None, b) ∧
  Write (fst (Close b)) [] = Some (0, None, fst (Close b)).
Proof. done. Qed.

End AudioBufferFacts.

(** * Facts about the sample conversion *)

Module PcmFacts.
Import Pcm.

Lemma wrap_id w z :
  0 < w → - 2 ^ (w - 1) ≤ z < 2 ^ (w - 1) → wrap w z = z.
Proof.
  intros Hw Hz. unfold wrap.
  assert (2 ^ w = 2 * 2 ^ (w - 1)) as E.
  { rewrite <- Z.pow_succ_r by lia. f_equal. lia. }
  rewrite Z.mod_small; lia.
Qed.

Lemma wrap_range w z :
  0 < w → - 2 ^ (w - 1) ≤ wrap w z < 2 ^ (w - 1).
Proof.
  intros Hw. unfold wrap.
  assert (2 ^ w = 2 * 2 ^ (w - 1)) as E.
  { rewrite <- Z.pow_succ_r by lia. f_equal. lia. }
  assert (0 < 2 ^ w) by (apply Z.pow_pos_nonneg; lia).
  pose proof (Z.mod_pos_bound (z + 2 ^ (w - 1)) (2 ^ w) ltac:(lia)). lia.
Qed.

Lemma to_int_range u w x :
  0 < w → - 2 ^ (w - 1) ≤ to_int u w x < 2 ^ (w - 1).
Proof.
  intros Hw. unfold to_int.
  destruct (truncate x) as [z|]; [|by apply wrap_range].
  destruct ((- 2 ^ (w - 1) <=? z) && (z <? 2 ^ (w - 1))) eqn:E;
    [|by apply wrap_range].
  apply andb_true_iff in E. lia.
Qed.

(** A representable value is converted exactly, whatever the
    implementation does with the others. *)
Lemma to_int_exact u w x t :
  truncate x = Some t → - 2 ^ (w - 1) ≤ t < 2 ^ (w - 1) → to_int u w x = t.
Proof.
  intros Ht Hr. unfold to_int. rewrite Ht.
  destruct ((- 2 ^ (w - 1) <=? t) && (t <? 2 ^ (w - 1))) eqn:E; [done|].
  apply andb_false_iff in E. lia.
Qed.

Lemma pcm16_clamps u sample :
  sample_to_pcm16 u sample =
    Z.max (-32768) (Z.min 32767 (to_int u 32 (mul32 sample f32_32767))).
Proof.
  unfold sample_to_pcm16.
  set (val := to_int u 32 (mul32 sample f32_32767)).
  destruct (val >? 32767) eqn:E1; [lia|].
  destruct (val <? -32768) eqn:E2; [lia|].
  rewrite wrap_id; lia.
Qed.

Lemma int_clamps u sample :
  sample_to_int u sample =
    Z.max (-32768) (Z.min 32767 (to_int u 64 (mul32 sample f32_32767))).
Proof.
  unfold sample_to_int.
  set (v := to_int u 64 (mul32 sample f32_32767)).
  destruct (v <? -32768) eqn:E1; [lia|].
  destruct (v >? 32767) eqn:E2; lia.
Qed.

(** C7 (saturating conversion), as the code has it.  Both conversions
    yield a value of the 16-bit range for every sample, and when the scaled
    sample [sample * 32767], truncated, is an [int32] value [t], the result
    is [t] clamped to [-32768 .. 32767]: the nearer bound when [t] is
    outside, [t] itself when inside, never a wrapped value. *)
Theorem conversion_saturates (u : spec_float → Z) (sample : spec_float) (t : Z) :
  truncate (mul32 sample f32_32767) = Some t →
  - 2 ^ 31 ≤ t < 2 ^ 31 →
  sample_to_pcm16 u sample = Z.max (-32768) (Z.min 32767 t) ∧
  sample_to_int u sample = Z.max (-32768) (Z.min 32767 t) ∧
  (32767 < t → sample_to_pcm16 u sample = 32767) ∧
  (t < -32768 → sample_to_pcm16 u sample = -32768) ∧
  (∀ other, -32768 ≤ sample_to_pcm16 u other ≤ 32767 ∧
            -32768 ≤ sample_to_int u other ≤ 32767).
Proof.
  intros Ht Hr.
  rewrite pcm16_clamps, int_clamps.
  rewrite (to_int_exact u 32 _ t Ht) by lia.
  rewrite (to_int_exact u 64 _ t Ht) by lia.
  repeat split; try lia.
  - rewrite pcm16_clamps. lia.
  - rewrite pcm16_clamps. lia.
  - rewrite int_clamps. lia.
  - rewrite int_clamps. lia.
Qed.

Lemma conversion_saturates_witness :
  sample_to_pcm16 most_negative f32_two = 32767 ∧
  sample_to_int most_negative f32_two = 32767.
Proof.
  destruct (conversion_saturates most_negative f32_two 65534
              ltac:(vm_compute; reflexivity) ltac:(lia)) as (H1 & H2 & _).
  split; [exact H1 | exact H2].
Defined.

(** C7 as stated does not hold: the sample next below [-1.0] has a
    magnitude above 1.0, and it is converted to [-32767], which is neither
    extremum. *)
Lemma just_below_minus_one_not_extremum :
  SFltb f32_one (SFabs just_below_minus_one) = true ∧
  sample_to_pcm16 most_negative just_below_minus_one = -32767 ∧
  sample_to_int most_negative just_below_minus_one = -32767.
Proof. vm_compute. done. Qed.

End PcmFacts.

(** * Facts about the decode loops *)

Module PlayerFacts.
Import AudioBuffer AudioBufferFacts Player.

Lemma after_writes_stuck ds :
  foldl (λ ob d, match ob with
                 | Some b => match Write b d with
                             | Some (_, _, b') => Some b'
                             | None => None
                             end
                 | None => None
                 end) None ds = None.
Proof. induction ds as [|d ds IH]; simpl; done. Qed.

Lemma after_writes_cons b d ds :
  after_writes b (d :: ds) =
    match Write b d with
    | Some (_, _, b') => after_writes b' ds
    | None => None
    end.
Proof.
  unfold after_writes. simpl.
  destruct (Write b d) as [[[n e] b']|]; [done | apply after_writes_stuck].
Qed.

Section Loop.

Context {Decoder : Type}.
Variable process : Decoder → list byte → Decoder * option (list byte).


(** On an open buffer whose high-water mark no decoded frame exceeds, the
    loop consumes every packet, stays in the loop, and hands the output of
    each accepted payload to the buffer, in order. *)
Lemma decodeLoop_packets (st : loop_state) (payloads : list (list byte)) :
  closed (audio st) = false →
  (∀ d payload d' pcm,
      process d payload = (d', Some pcm) → len pcm ≤ highWater (audio st)) →
  ∃ b',
    decodeLoop process false st (map Packet payloads) =
      (InReadRTP,
       {| decoder := fst (decoded process (decoder st) payloads);
          audio := b';
          delivered := delivered st ++ snd (decoded process (decoder st) payloads) |}) ∧
    after_writes (audio st) (snd (decoded process (decoder st) payloads)) = Some b'.
Proof.
  revert st. induction payloads as [|p ps IH]; intros st Hopen Hfit; simpl.
  - exists (audio st). rewrite app_nil_r. by destruct st.
  - destruct (process (decoder st) p) as [d' [pcm|]] eqn:Ep.
    + pose proof (Write_cases (audio st) pcm) as Hc.
      destruct (Write_returns (audio st) pcm (Hfit _ _ _ _ Ep)) as [[[n e] b1] HW].
      rewrite HW in Hc.
      destruct (Write_config _ _ _ _ _ HW) as (_ & _ & Hhw & Hcl).
      assert (e = None) as ->.
      { destruct Hc as [(_ & _ & -> & _)|[(_ & ? & _)|(_ & _ & _ & -> & _)]];
          [done | congruence | done]. }
      destruct (IH {| decoder := d'; audio := b1;
                      delivered := delivered st ++ [pcm] |}) as (b' & Hrun & Haw).
      { simpl. congruence. }
      { simpl. intros. rewrite Hhw. eauto. }
      simpl in Hrun, Haw. exists b'. rewrite HW, Hrun.
      destruct (decoded process d' ps) as [d'' out] eqn:Ed. simpl in *.
      rewrite <- app_assoc. split; [done|].
      by rewrite after_writes_cons, HW.
    + destruct (IH {| decoder := d'; audio := audio st;
                      delivered := delivered st |}) as (b' & Hrun & Haw);
        [done | done |].
      exists b'. done.
Qed.


(** When every payload is accepted, every payload has its output. *)
Lemma decoded_all d payloads :
  (∀ d' payload, payload ∈ payloads → snd (process d' payload) ≠ None) →
  length (snd (decoded process d payloads)) = length payloads.
Proof.
  revert d. induction payloads as [|p ps IH]; intros d Hok; simpl; [done|].
  pose proof (Hok d p ltac:(left)) as Hp.
  destruct (process d p) as [d' [pcm|]]; [|done].
  specialize (IH d' ltac:(intros; apply Hok; by right)).
  destruct (decoded process d' ps). simpl in *. by rewrite IH.
Qed.

End Loop.

Lemma copy_length {A} (dst src : list A) : length (snd (copy dst src)) = length dst.
Proof.
  unfold copy. cbn [snd]. rewrite length_app, length_take, length_drop. lia.
Qed.

Lemma flat_map_PutUint16_length (l : list Z) :
  length (flat_map (λ s, PutUint16 (uint16 s)) l) = (length l * 2)%nat.
Proof. induction l as [|x l IH]; simpl; [done | by rewrite IH]. Qed.

(** The frames of the two players fit under the mark of [newAudioBuffer]. *)
Lemma processV3_len {Decoder} (decodeV3 : Decoder → list byte → Decoder * option (list byte))
    d payload d' pcm :
  processV3 decodeV3 d payload = (d', Some pcm) → len pcm = 7680.
Proof.
  unfold processV3. destruct (decodeV3 d payload) as [d1 [out|]]; [|done].
  intros H. assert (pcm = snd (copy pcmBufV3 out)) as -> by congruence.
  unfold len. rewrite copy_length.
  unfold pcmBufV3. rewrite length_replicate. by vm_compute.
Qed.

Lemma processV2_len {Decoder} (decodeV2 : Decoder → list byte → Decoder * option (list Z))
    d payload d' pcm :
  processV2 decodeV2 d payload = (d', Some pcm) → len pcm ≤ 5760.
Proof.
  unfold processV2. destruct (decodeV2 d payload) as [d1 [samples|]]; [|done].
  unfold toByteArray. rewrite flat_map_PutUint16_length.
  destruct (length byteBuf <? length samples * 2)%nat eqn:E; [done|].
  intros H.
  match type of H with
  | (_, Some (take ?n ?l)) = _ => assert (pcm = take n l) as -> by congruence
  end.
  unfold len. rewrite length_take.
  apply Nat.ltb_ge in E.
  assert (Z.of_nat (length byteBuf) = 5760) as Hb.
  { unfold byteBuf. rewrite length_replicate. by vm_compute. }
  lia.
Qed.



End PlayerFacts.

(** * Facts about the session *)

Module SessionFacts.
Import Session.

Lemma eqb_empty_false t : t ≠ EmptyString → String.eqb t EmptyString = false.
Proof. intros H. by apply String.eqb_neq. Qed.

(** [Connect] on a session that holds a credential: no token exchange, and
    the credential is the one sent with the offer. *)
Lemma Connect_cached c w :
  ephemeralToken c ≠ EmptyString →
  existsb is_token_exchange (calls (Connect c w)) = false ∧
  ephemeralToken (api (Connect c w)) = ephemeralToken c ∧
  (∀ sdp tok, SendOffer sdp tok ∈ calls (Connect c w) → tok = ephemeralToken c).
Proof.
  intros Hne. unfold Connect. rewrite (eqb_empty_false _ Hne).
  unfold setupPeerConnection, connectToRealtimeAPI, setupDataChannel,
    dropPeerConnection.
  destruct (newPeerConnection w) as [pc|], (addTransceiver w),
    (createOffer w) as [sdp0|], (setLocalDescription w), (answer w) as [ans|],
    (setRemoteDescription w), (createDataChannel w) as [dc|];
    simpl; (split; [done|]); (split; [done|]);
    intros sdp tok Hin;
    repeat (apply elem_of_cons in Hin as [Hin|Hin]; [congruence|]);
    by apply elem_of_nil in Hin.
Qed.

(** [Connect] on a session without a credential starts with the token
    exchange. *)
Lemma Connect_fresh c w :
  ephemeralToken c = EmptyString →
  head (calls (Connect c w)) = Some (TokenExchange (Key c) (Model c) (Voice c)).
Proof.
  intros He. unfold Connect, createEphemeralToken. rewrite He. simpl.
  destruct (tokenReply w) as [v|]; [|done].
  destruct (String.eqb v EmptyString); [done|].
  destruct (setupPeerConnection _ w) as [[c2 [|]] tr2]; [|done].
  destruct (connectToRealtimeAPI c2 w) as [[|] tr3].
  - destruct (setupDataChannel c2 w) as [[c3 [|]] tr4]; [done|].
    by destruct (dropPeerConnection c3).
  - by destruct (dropPeerConnection c2).
Qed.

Lemma Disconnect_token c : ephemeralToken (fst (Disconnect c)) = ephemeralToken c.
Proof.
  destruct c as [k m v t [pc|] [dc|]]; reflexivity.
Qed.

(** C9 (cached credential).  The token exchange is among the calls of
    [Connect] exactly when the session holds no credential.  When it holds
    one, [Connect] leaves it unchanged and sends it with the offer, and
    [Disconnect], before or after, does not clear it. *)
Theorem credential_reuse (c : OpenAIRealtimeAPI) (w : replies) :
  (existsb is_token_exchange (calls (Connect c w)) = true ↔
     ephemeralToken c = EmptyString) ∧
  (ephemeralToken c ≠ EmptyString →
     ephemeralToken (api (Connect c w)) = ephemeralToken c ∧
     (∀ sdp tok, SendOffer sdp tok ∈ calls (Connect c w) → tok = ephemeralToken c) ∧
     ephemeralToken (fst (Disconnect (api (Connect c w)))) = ephemeralToken c) ∧
  ephemeralToken (fst (Disconnect c)) = ephemeralToken c.
Proof.
  split; [|split].
  - split.
    + intros H. destruct (String.eqb_spec (ephemeralToken c) EmptyString) as [|Hne];
        [done|].
      destruct (Connect_cached c w Hne) as (H' & _). congruence.
    + intros He. pose proof (Connect_fresh c w He) as Hh.
      destruct (calls (Connect c w)) as [|e tr]; [done|].
      injection Hh as ->. done.
  - intros Hne. destruct (Connect_cached c w Hne) as (_ & Ht & Hs).
    split; [done|]. split; [done|]. by rewrite Disconnect_token.
  - apply Disconnect_token.
Qed.

(** A reconnect: the first [Connect] obtains the credential, the session
    is disconnected, and the second [Connect] reuses it. *)
Lemma credential_reuse_witness :
  let c1 := fst (Disconnect (api (Connect (NewOpenAIRealtimeAPI "sk-key") all_fine))) in
  ephemeralToken c1 = "ek_fresh"%string ∧
  ephemeralToken (api (Connect c1 all_fine)) = "ek_fresh"%string ∧
  calls (Connect c1 all_fine) =
    [NewPeerConnection; SendOffer "v=0 offer" "ek_fresh"; CreateDataChannel].
Proof.
  intros c1.
  destruct (proj1 (proj2 (credential_reuse c1 all_fine)) ltac:(by vm_compute))
    as (Ht & _ & _).
  split; [reflexivity|]. split; [exact Ht | reflexivity].
Defined.

End SessionFacts.

(** * More on the jitter buffer *)

Module AudioBufferMore.
Import AudioBuffer AudioBufferFacts.

(** ** When [Write] returns *)

(** [Write] returns exactly for empty data, for a closed buffer, and for
    data that alone fits under the high-water mark. *)
Theorem Write_returns_iff (b : audioBuffer) (data : list byte) :
  (∃ fuel r, Write_fuel fuel b data = Some r) ↔
  (data = [] ∨ closed b = true ∨ len data ≤ highWater b).
Proof.
  split.
  - intros (fuel & r & H). apply Write_fuel_stable in H.
    destruct data as [|x data]; [by left|]. right.
    destruct (closed b) eqn:Hc; [by left|]. right.
    destruct (Z_lt_le_dec (highWater b) (len (x :: data))) as [Hlt|]; [|done].
    rewrite (proj2 (Write_spins_iff b (x :: data))) in H; done.
  - intros H. destruct (Write b data) as [r|] eqn:E.
    + by exists (S (length (buf b))), r.
    + apply Write_spins_iff in E as (? & ? & ?).
      destruct H as [?|[?|?]]; [done|congruence|lia].
Qed.

(** ** What a discard leaves *)

(** A write that had to discard leaves the buffer more than half the
    high-water mark full; so when the low-water mark is at most half the
    high-water mark, as the constructor has it, no reader stays parked after
    it. *)
Theorem discard_leaves_half (b : audioBuffer) (data : list byte) (n : Z)
    (b' : audioBuffer) :
  closed b = false → data ≠ [] →
  Write b data = Some (n, None, b') →
  highWater b < fill b + len data →
  highWater b < 2 * fill b' ∧
  (2 * lowWater b ≤ highWater b → ∀ p, Read b' p ≠ ReadWaits).
Proof.
  intros Hc Hne HW Hover.
  assert (highWater b < 2 * fill b') as Hhalf.
  { unfold Write, Write_fuel in HW. rewrite Hc in HW.
    destruct (len data =? 0) eqn:E0.
    { apply Z.eqb_eq, len_nil_iff in E0. done. }
    destruct (dropOldest _ _ _ _) as [l|] eqn:El; [|done].
    injection HW as <- <-. unfold fill. cbn [buf with_buf]. rewrite len_app.
    apply dropOldest_half in El; unfold fill, len in *; lia. }
  split; [done|]. intros Hlow p Hw.
  pose proof (Read_cases b' p) as Hr. rewrite Hw in Hr.
  destruct (Write_config _ _ _ _ _ HW) as (_ & Hl & _). lia.
Qed.

Lemma discard_leaves_half_witness :
  fill (state after_discard) = 70000 ∧
  highWater (state after_older) < 2 * fill (state after_discard) ∧
  Read (state after_discard) (replicate 4 x00) ≠ ReadWaits.
Proof.
  destruct (discard_leaves_half (state after_older) newer (len newer)
              (state after_discard)) as (Hh & Hr).
  - reflexivity.
  - unfold newer. by intros [=].
  - exact Write_newer.
  - unfold fill. cbn [state after_older buf with_buf highWater newAudioBuffer].
    change highWaterMark with 76800. rewrite len_older, len_newer. lia.
  - split; [|split; [exact Hh|]].
    + unfold fill. cbn [state after_discard buf with_buf]. rewrite len_app.
      pose proof len_older. pose proof len_newer. unfold len in *.
      rewrite length_drop. lia.
    + apply Hr. by vm_compute.
Defined.

(** The whole effect of [Write] on an open buffer within its mark, for
    data that is not empty and fits under the mark: the data is appended, and
    when that would cross the mark the [len data] oldest bytes (all of them
    when there are fewer) go first; one pass of the loop is enough. *)
Theorem Write_effect (b : audioBuffer) (data : list byte) :
  closed b = false → data ≠ [] → len data ≤ highWater b →
  fill b ≤ highWater b →
  Write b data =
    Some (len data, None,
          with_buf b ((if fill b + len data <=? highWater b then buf b
                       else drop (length data) (buf b)) ++ data)).
Proof.
  intros Hc Hne Hd Hf.
  assert (0 < len data) as Hpos.
  { destruct data; [done | unfold len; simpl; lia]. }
  destruct (fill b + len data <=? highWater b) eqn:E.
  { apply Write_fits; [done | done | lia]. }
  apply Z.leb_gt in E.
  destruct (Z_le_gt_dec (len data) (fill b)) as [Hle|Hgt].
  { apply Write_discards_oldest; [done | lia | lia]. }
  unfold fill in *. unfold Write, Write_fuel. rewrite Hc.
  destruct (len data =? 0) eqn:E0; [lia|]. cbn [dropOldest].
  destruct (len (buf b) + Z.of_nat (length data) >? highWater b) eqn:E1;
    [|unfold len in *; lia].
  destruct (length (buf b) <? length data)%nat eqn:E2.
  2: { apply Nat.ltb_ge in E2. unfold len in *. lia. }
  rewrite drop_all, (drop_ge (buf b) (length data)) by (unfold len in *; lia).
  rewrite dropOldest_stays; [done|].
  rewrite Z.gtb_ltb. apply Z.ltb_ge. unfold len in *. simpl. lia.
Qed.

Lemma Write_effect_witness :
  Write (state after_older) newer =
    Some (len newer, None,
          with_buf (state after_older) (drop (length newer) older ++ newer)).
Proof.
  assert (fill (state after_older) = 70000) as Hf.
  { unfold fill. cbn [state after_older buf with_buf]. apply len_older. }
  assert (highWater (state after_older) = 76800) as Hh by reflexivity.
  assert ((fill (state after_older) + len newer <=? highWater (state after_older))
          = false) as E.
  { apply Z.leb_gt. rewrite Hf, Hh, len_newer. lia. }
  pose proof (Write_effect (state after_older) newer) as H.
  rewrite E in H. apply H.
  - reflexivity.
  - unfold newer. by intros [=].
  - rewrite Hh, len_newer. lia.
  - rewrite Hf, Hh. lia.
Defined.

(** ** The stream across writes, reads and discards *)

Lemma Read_hands_front b p n err p' b' :
  Read b p = ReadReturns n err p' b' →
  take (Z.to_nat n) p' ++ buf b' = buf b.
Proof.
  intros H. pose proof (Read_cases b p) as Hc. rewrite H in Hc.
  destruct Hc as (_ & Hn & -> & -> & _). cbn [buf with_buf].
  rewrite take_app_length'; [apply take_drop|].
  rewrite length_take. unfold fill, len in Hn. lia.
Qed.

Lemma exec_sublist h o h' :
  received h ++ buf (state h) `sublist_of` written h → exec h o = Some h' →
  received h' ++ buf (state h') `sublist_of` written h'.
Proof.
  intros Hs. destruct o as [data|p|]; simpl.
  - pose proof (Write_cases (state h) data) as Hc.
    destruct (Write (state h) data) as [[[n err] b']|]; [|done].
    intros [= <-]. simpl.
    destruct Hc as [(-> & -> & _ & ->)|[(_ & _ & -> & _ & ->)|(_ & _ & -> & _ & _ & k & -> & _)]].
    + by rewrite app_nil_r.
    + simpl. by rewrite app_nil_r.
    + simpl. rewrite take_len, app_assoc.
      apply sublist_app; [|done].
      etrans; [|exact Hs]. apply sublist_app; [done | apply sublist_drop].
  - destruct (Read (state h) p) as [|n err p' b'] eqn:E; [done|].
    intros [= <-]. simpl. rewrite <- app_assoc.
    by rewrite (Read_hands_front _ _ _ _ _ _ E).
  - intros [= <-]. simpl. by destruct (closed (state h)).
Qed.

(** The bytes handed to readers, followed by the bytes still in the buffer,
    are a subsequence of the bytes written, in the order of writing: no mix
    of writes, reads, discards and closes duplicates or reorders a byte. *)
Theorem stream_order (ops : list op) (h : history) :
  run start ops = Some h →
  received h ++ buf (state h) `sublist_of` written h.
Proof.
  assert (∀ ops h0 h1,
           received h0 ++ buf (state h0) `sublist_of` written h0 →
           run h0 ops = Some h1 →
           received h1 ++ buf (state h1) `sublist_of` written h1) as Hgen.
  { clear. induction ops as [|o ops IH]; intros h0 h1 Hs; simpl.
    - by intros [= <-].
    - destruct (exec h0 o) as [h2|] eqn:E; [|done].
      apply IH. by eapply exec_sublist. }
  apply Hgen. simpl. done.
Qed.

Lemma stream_order_witness :
  received burst_history ++ buf (state burst_history) `sublist_of`
    written burst_history.
Proof. exact (stream_order burst_ops burst_history burst_run). Defined.

Lemma exec_written_mono h o h' :
  exec h o = Some h' → len (written h) ≤ len (written h').
Proof.
  destruct o as [data|p|]; simpl.
  - destruct (Write (state h) data) as [[[n err] b']|]; [|done].
    intros [= <-]. simpl. rewrite len_app. pose proof (len_nonneg (take (Z.to_nat n) data)).
    lia.
  - destruct (Read (state h) p) as [|n err p' b']; [done|].
    intros [= <-]. simpl. lia.
  - intros [= <-]. simpl. lia.
Qed.

Lemma run_written_mono ops h h' :
  run h ops = Some h' → len (written h) ≤ len (written h').
Proof.
  revert h. induction ops as [|o ops IH]; intros h; simpl.
  - intros [= <-]. lia.
  - destruct (exec h o) as [h1|] eqn:E; [|done].
    intros H. apply IH in H. apply exec_written_mono in E. lia.
Qed.

Lemma run_lossless ops h h' hw :
  highWater (state h) = hw →
  received h ++ buf (state h) = written h →
  run h ops = Some h' → len (written h') ≤ hw →
  received h' ++ buf (state h') = written h'.
Proof.
  revert h. induction ops as [|o ops IH]; intros h Hhw Hinv; simpl.
  - by intros [= <-].
  - destruct (exec h o) as [h1|] eqn:E; [|done].
    intros Hrun Hlen. pose proof (run_written_mono _ _ _ Hrun) as Hmono.
    apply (IH h1); try done.
    + destruct o as [data|p|]; simpl in E.
      * destruct (Write (state h) data) as [[[n err] b']|] eqn:EW; [|done].
        injection E as <-. simpl.
        by destruct (Write_config _ _ _ _ _ EW) as (_ & _ & -> & _).
      * destruct (Read (state h) p) as [|n err p' b'] eqn:ER; [done|].
        injection E as <-. simpl.
        by destruct (Read_config _ _ _ _ _ _ ER) as (_ & _ & -> & _).
      * injection E as <-. simpl. by destruct (closed (state h)).
    + destruct o as [data|p|]; simpl in E.
      * pose proof (Write_cases (state h) data) as Hc.
        destruct (Write (state h) data) as [[[n err] b']|] eqn:EW; [|done].
        injection E as <-. simpl in *.
        destruct Hc as [(-> & -> & _ & ->)|[(_ & _ & -> & _ & ->)|(Hne & Hcl & -> & _ & _ & _)]].
        -- simpl. by rewrite app_nil_r.
        -- simpl. by rewrite app_nil_r.
        -- rewrite take_len in *.
           assert (0 < len data) as Hpos.
           { destruct data; [done | unfold len; simpl; lia]. }
           assert (fill (state h) + len data ≤ highWater (state h)) as Hfit.
           { rewrite len_app in Hmono. rewrite <- Hinv, len_app in Hmono.
             pose proof (len_nonneg (received h)). unfold fill. lia. }
           rewrite (Write_fits _ _ Hcl Hpos Hfit) in EW.
           injection EW as EW; subst b'. simpl. by rewrite app_assoc, Hinv.
      * destruct (Read (state h) p) as [|n err p' b'] eqn:ER; [done|].
        injection E as <-. simpl. rewrite <- app_assoc.
        by rewrite (Read_hands_front _ _ _ _ _ _ ER).
      * injection E as <-. simpl. by destruct (closed (state h)).
Qed.

(** As long as no more than the high-water mark has been written in all,
    nothing is lost: the bytes handed to readers followed by the bytes in the
    buffer are exactly the bytes written. *)
Theorem lossless_under_mark (ops : list op) (h : history) :
  run start ops = Some h → len (written h) ≤ highWaterMark →
  received h ++ buf (state h) = written h.
Proof.
  intros Hrun Hlen. by apply (run_lossless ops start h highWaterMark).
Qed.

Lemma lossless_under_mark_witness :
  received burst_history ++ buf (state burst_history) = written burst_history.
Proof.
  apply (lossless_under_mark burst_ops burst_history burst_run). by vm_compute.
Defined.

(** ** After [Close] *)

Lemma exec_closed h o :
  closed (state h) = true →
  ∃ h', exec h o = Some h' ∧ closed (state h') = true ∧
        written h' = written h ∧
        received h' ++ buf (state h') = received h ++ buf (state h).
Proof.
  intros Hc. destruct o as [data|p|]; simpl.
  - pose proof (Write_cases (state h) data) as Hw.
    destruct (Write (state h) data) as [[[n err] b']|].
    + eexists. split; [done|]. simpl.
      destruct Hw as [(-> & -> & _ & ->)|[(_ & _ & -> & _ & ->)|(_ & ? & _)]];
        [| |congruence]; simpl; by rewrite app_nil_r.
    + destruct Hw as (_ & ? & _). congruence.
  - pose proof (Read_cases (state h) p) as Hr.
    destruct (Read (state h) p) as [|n err p' b'] eqn:E.
    { destruct Hr. congruence. }
    eexists. split; [done|]. simpl.
    destruct (Read_config _ _ _ _ _ _ E) as (_ & _ & _ & ->).
    rewrite <- app_assoc, (Read_hands_front _ _ _ _ _ _ E). done.
  - eexists. split; [done|]. simpl. by rewrite Hc.
Qed.

(** Closing is final.  On a closed buffer every further call returns,
    whatever it is; the buffer stays closed, nothing is added to the stream,
    and the bytes held at the time of closing are all still there or handed
    to a reader. *)
Theorem closed_is_final (ops : list op) (h : history) :
  closed (state h) = true →
  ∃ h', run h ops = Some h' ∧ closed (state h') = true ∧
        written h' = written h ∧
        received h' ++ buf (state h') = received h ++ buf (state h).
Proof.
  revert h. induction ops as [|o ops IH]; intros h Hc; simpl.
  - by exists h.
  - destruct (exec_closed h o Hc) as (h1 & -> & Hc1 & Hw1 & Hr1).
    destruct (IH h1 Hc1) as (h' & Hrun & Hc' & Hw' & Hr').
    exists h'. rewrite Hw', Hr'. done.
Qed.

Lemma closed_is_final_witness :
  ∃ h', run burst_history [OpWrite [x09]; OpRead [x00; x00]; OpRead [x00];
                           OpWrite []; OpClose] = Some h' ∧
        written h' = [x01; x02; x03] ∧
        received h' ++ buf (state h') = [x01; x02; x03].
Proof.
  destruct (closed_is_final [OpWrite [x09]; OpRead [x00; x00]; OpRead [x00];
                             OpWrite []; OpClose] burst_history ltac:(reflexivity))
    as (h' & Hrun & _ & Hw & Hr).
  exists h'. split; [exact Hrun|]. split; [exact Hw | exact Hr].
Defined.

End AudioBufferMore.

(** * Facts about the sample encodings *)

Module EncodingFacts.
Import Player Encoding.

Lemma Z_of_byte_of_Z z : Z_of_byte (byte_of_Z z) = z mod 256.
Proof.
  unfold Z_of_byte, byte_of_Z.
  pose proof (Z.mod_pos_bound z 256 ltac:(lia)) as Hb.
  destruct (Byte.of_N (Z.to_N (z mod 256))) as [b|] eqn:E.
  - apply Byte.to_of_N in E. rewrite E. apply Z2N.id. lia.
  - apply Byte.of_N_None_iff in E. lia.
Qed.

Lemma mod_65536_256 z : (z mod 65536) mod 256 = z mod 256.
Proof.
  rewrite (Z.mod_eq z 65536) by lia.
  replace (z - 65536 * (z / 65536)) with (z + (- 256 * (z / 65536)) * 256) by lia.
  apply Z_mod_plus_full.
Qed.

Lemma div_65536_256 z : ((z mod 65536) / 256) mod 256 = (z / 256) mod 256.
Proof.
  change 65536 with (256 * 256). rewrite Z.rem_mul_r by lia.
  pose proof (Z.mod_pos_bound z 256 ltac:(lia)).
  pose proof (Z.mod_pos_bound (z / 256) 256 ltac:(lia)).
  assert ((z mod 256 + 256 * ((z / 256) mod 256)) / 256 = (z / 256) mod 256) as ->.
  { symmetry. apply (Z.div_unique _ 256 _ (z mod 256)); lia. }
  apply Z.mod_mod. lia.
Qed.

Lemma byte_of_Z_mod z z' : z mod 256 = z' mod 256 → byte_of_Z z = byte_of_Z z'.
Proof. unfold byte_of_Z. by intros ->. Qed.

(** [PutUint16(uint16(s))] stores the same two bytes as [byte(s)],
    [byte(s >> 8)]. *)
Lemma PutUint16_bytes s :
  PutUint16 (uint16 s) = [byte_of_Z s; byte_of_Z (Z.shiftr s 8)].
Proof.
  unfold PutUint16, uint16. f_equal; [|f_equal].
  - apply byte_of_Z_mod, mod_65536_256.
  - apply byte_of_Z_mod. rewrite !Z.shiftr_div_pow2 by lia. apply div_65536_256.
Qed.

Lemma encoders_agree (buf : list Z) :
  flat_map (λ s, PutUint16 (uint16 s)) buf = int16ToLittleEndianBytes buf.
Proof.
  unfold int16ToLittleEndianBytes.
  induction buf as [|s buf IH]; simpl; [done|].
  rewrite IH. pose proof (PutUint16_bytes s) as H. unfold PutUint16 in H.
  by injection H as -> ->.
Qed.

Lemma int16ToLittleEndianBytes_length samples :
  length (int16ToLittleEndianBytes samples) = (length samples * 2)%nat.
Proof.
  unfold int16ToLittleEndianBytes.
  induction samples as [|s l IH]; simpl; [done | by rewrite IH].
Qed.

Lemma toByteArray_cases (buf : list Z) (bytes : list byte) :
  match toByteArray buf bytes with
  | None => (length bytes < length buf * 2)%nat
  | Some (bi, bytes') =>
      (length buf * 2 ≤ length bytes)%nat ∧
      bi = (length buf * 2)%nat ∧
      bytes' = int16ToLittleEndianBytes buf ++ drop (length buf * 2) bytes
  end.
Proof.
  unfold toByteArray. rewrite encoders_agree.
  rewrite (int16ToLittleEndianBytes_length buf).
  destruct (length bytes <? length buf * 2)%nat eqn:E.
  - by apply Nat.ltb_lt in E.
  - by apply Nat.ltb_ge in E.
Qed.

(** [toByteArray] refuses exactly a destination shorter than two bytes per
    sample.  Otherwise it returns the count [2 * len(buf)], stores at the
    front of the destination the bytes that [int16ToLittleEndianBytes] makes
    of the samples, and leaves the rest of the destination and its length as
    they were. *)
Theorem toByteArray_effect (buf : list Z) (bytes : list byte) :
  (toByteArray buf bytes = None ↔ (length bytes < length buf * 2)%nat) ∧
  (∀ bi bytes',
      toByteArray buf bytes = Some (bi, bytes') →
      bi = (length buf * 2)%nat ∧
      length bytes' = length bytes ∧
      take bi bytes' = int16ToLittleEndianBytes buf ∧
      drop bi bytes' = drop bi bytes).
Proof.
  pose proof (toByteArray_cases buf bytes) as Hc.
  pose proof (int16ToLittleEndianBytes_length buf) as Hl.
  destruct (toByteArray buf bytes) as [[bi0 bytes0]|].
  - destruct Hc as (Hle & -> & ->). split; [split; [done | lia]|].
    intros bi bytes' [= <- <-]. split; [done|]. split; [|split].
    + rewrite length_app, length_drop. lia.
    + by rewrite take_app_length'.
    + by rewrite drop_app_length'.
  - split; [done|]. intros bi bytes' [=].
Qed.

Lemma toByteArray_effect_witness :
  toByteArray [1; -2] [xaa; xbb; xcc; xdd; xee] =
    Some (4%nat, [x01; x00; xfe; xff; xee]) ∧
  take 4 [x01; x00; xfe; xff; xee] = int16ToLittleEndianBytes [1; -2] ∧
  toByteArray [1; -2] [xaa; xbb; xcc] = None.
Proof.
  assert (toByteArray [1; -2] [xaa; xbb; xcc; xdd; xee] =
          Some (4%nat, [x01; x00; xfe; xff; xee])) as H by reflexivity.
  split; [exact H|]. split.
  - exact (proj1 (proj2 (proj2 (proj2 (toByteArray_effect _ _) _ _ H)))).
  - apply (proj1 (toByteArray_effect [1; -2] [xaa; xbb; xcc])). simpl. lia.
Defined.

Lemma wrap16_of_bytes s :
  is_int16 s →
  Pcm.wrap 16 (Z_of_byte (byte_of_Z s) + 256 * Z_of_byte (byte_of_Z (Z.shiftr s 8))) = s.
Proof.
  intros Hs. unfold is_int16 in Hs. rewrite !Z_of_byte_of_Z.
  rewrite Z.shiftr_div_pow2 by lia. change (2 ^ 8) with 256.
  assert (s mod 256 + 256 * ((s / 256) mod 256) = s mod 65536) as ->.
  { change 65536 with (256 * 256). by rewrite Z.rem_mul_r by lia. }
  unfold Pcm.wrap. change (2 ^ (16 - 1)) with 32768. change (2 ^ 16) with 65536.
  rewrite Zplus_mod_idemp_l. rewrite Z.mod_small; lia.
Qed.

(** Samples of the 16-bit range written by [int16ToLittleEndianBytes]
    ([AudioWriter.WriteSamples], [toByteArray]) and read back as
    little-endian 16-bit values are the samples again. *)
Theorem little_endian_round_trip (samples : list Z) :
  Forall is_int16 samples →
  fromLittleEndian (int16ToLittleEndianBytes samples) = samples ∧
  length (int16ToLittleEndianBytes samples) = (2 * length samples)%nat.
Proof.
  intros H. split; [|rewrite int16ToLittleEndianBytes_length; lia].
  unfold int16ToLittleEndianBytes.
  induction H as [|s l Hs _ IH]; simpl; [done|].
  rewrite IH. by rewrite wrap16_of_bytes.
Qed.

Lemma little_endian_round_trip_witness :
  fromLittleEndian (int16ToLittleEndianBytes [-32768; -1; 0; 255; 256; 32767]) =
    [-32768; -1; 0; 255; 256; 32767].
Proof.
  apply (little_endian_round_trip [-32768; -1; 0; 255; 256; 32767]).
  repeat constructor; unfold is_int16; lia.
Defined.

(** ** [float32ToBytes] at the ends of its clamp *)

Lemma below_minus_one_not_above s :
  SFltb s f32_neg_one = true → SFltb Pcm.f32_one s = false.
Proof.
  destruct s as [[|]|[|]| |[|] m e]; try done.
Qed.

(** The clamp of [float32ToBytes] holds at the bottom and not at the top.
    Every sample below [-1.0] is stored as the most negative [int32],
    bytes [00 00 00 80].  Every sample above [1.0], and [1.0] itself, is
    scaled to [2^31], which no [int32] holds: the four bytes are those of
    whatever the platform makes of that conversion. *)
Theorem float32ToBytes_clamp_ends (u : spec_float → Z) (sample : spec_float) :
  (SFltb sample f32_neg_one = true →
   float32ToBytes_sample u sample = [x00; x00; x00; x80]) ∧
  (SFltb Pcm.f32_one sample = true ∨ sample = Pcm.f32_one →
   float32ToBytes_sample u sample =
     le32 (Pcm.wrap 32 (u (S754_finite false 8388608 8))) ∧
   Pcm.truncate (S754_finite false 8388608 8) = Some (2 ^ 31)).
Proof.
  split.
  - intros H. unfold float32ToBytes_sample.
    rewrite (below_minus_one_not_above _ H), H. reflexivity.
  - intros [H| ->]; unfold float32ToBytes_sample.
    + rewrite H. split; reflexivity.
    + split; reflexivity.
Qed.

Lemma float32ToBytes_clamp_ends_witness :
  float32ToBytes Pcm.most_negative [Pcm.f32_two; S754_finite true 8388608 (-22)] =
    [x00; x00; x00; x80; x00; x00; x00; x80].
Proof.
  destruct (float32ToBytes_clamp_ends Pcm.most_negative Pcm.f32_two) as (_ & Hhi).
  destruct (float32ToBytes_clamp_ends Pcm.most_negative (S754_finite true 8388608 (-22)))
    as (Hlo & _).
  unfold float32ToBytes. cbn [flat_map].
  rewrite (proj1 (Hhi ltac:(left; reflexivity))), (Hlo ltac:(reflexivity)).
  reflexivity.
Defined.

End EncodingFacts.

(** * Facts about the diagnostics *)

Module DiagnosticsFacts.
Import Diagnostics.

Lemma minMax_fold (l : list Z) (mn mx : Z) :
  mn ≤ mx →
  let r := foldl (λ '(mn, mx) s,
                    (if s <? mn then s else mn, if s >? mx then s else mx))
             (mn, mx) l in
  r.1 ≤ mn ∧ mx ≤ r.2 ∧ r.1 ∈ mn :: l ∧ r.2 ∈ mx :: l ∧
  Forall (λ s, r.1 ≤ s ≤ r.2) l.
Proof.
  revert mn mx. induction l as [|s l IH]; intros mn mx Hle; simpl.
  - repeat split; try lia; try (by left); try (by constructor).
  - set (mn' := if s <? mn then s else mn).
    set (mx' := if s >? mx then s else mx).
    assert (mn' ≤ mn ∧ mn' ≤ s ∧ mx ≤ mx' ∧ s ≤ mx') as (? & ? & ? & ?).
    { subst mn' mx'. destruct (s <? mn) eqn:E1, (s >? mx) eqn:E2; lia. }
    destruct (IH mn' mx' ltac:(lia)) as (G1 & G2 & G3 & G4 & G5).
    repeat split; try lia.
    + apply elem_of_cons in G3 as [->|?]; [|by right; right].
      subst mn'. destruct (s <? mn); [right; left | left]; done.
    + apply elem_of_cons in G4 as [->|?]; [|by right; right].
      subst mx'. destruct (s >? mx); [right; left | left]; done.
    + constructor; [lia | done].
Qed.

(** For samples that are not empty, [minMax] returns two of the samples,
    and every sample lies between them. *)
Theorem minMax_bounds (samples : list Z) :
  samples ≠ [] →
  (minMax samples).1 ∈ samples ∧ (minMax samples).2 ∈ samples ∧
  Forall (λ s, (minMax samples).1 ≤ s ≤ (minMax samples).2) samples.
Proof.
  destruct samples as [|s0 l]; [done|]. intros _.
  unfold minMax.
  destruct (minMax_fold (s0 :: l) s0 s0 ltac:(lia)) as (_ & _ & H3 & H4 & H5).
  split; [|split; [|done]].
  - apply elem_of_cons in H3 as [->|?]; [left | done].
  - apply elem_of_cons in H4 as [->|?]; [left | done].
Qed.

Lemma minMax_bounds_witness :
  minMax [3; -7; 12; 0] = (-7, 12) ∧
  Forall (λ s, (minMax [3; -7; 12; 0]).1 ≤ s ≤ (minMax [3; -7; 12; 0]).2) [3; -7; 12; 0].
Proof.
  split; [reflexivity|].
  exact (proj2 (proj2 (minMax_bounds [3; -7; 12; 0] ltac:(done)))).
Defined.

End DiagnosticsFacts.

(** * Facts about the callback players *)

Module CallbackFacts.
Import Callback.

Section Samples.

Context {A : Type}.
Variable zero : A.

Lemma wrapped_index (len idx : nat) :
  (0 < len)%nat → (idx ≤ len)%nat →
  (if (len <=? idx)%nat then 0%nat else idx) = (idx mod len)%nat.
Proof.
  intros Hl Hi. destruct (len <=? idx)%nat eqn:E.
  - apply Nat.leb_le in E. assert (idx = len) as -> by lia.
    by rewrite Nat.Div0.mod_same.
  - apply Nat.leb_gt in E. by rewrite Nat.mod_small.
Qed.

Lemma succ_mod_add (len idx j : nat) :
  (0 < len)%nat →
  ((S (idx mod len) + j) mod len = (idx + S j) mod len)%nat.
Proof.
  intros Hl. replace (S (idx mod len) + j)%nat with (idx mod len + S j)%nat by lia.
  by rewrite Nat.Div0.add_mod_idemp_l.
Qed.

(** [processAudio] reads the buffer as a ring: on a buffer that is not
    empty it fills the whole of [out], the [i]-th value being the one at
    [(bufferIndex + i) mod len(buffer)], and the index it leaves is again
    within [1 .. len(buffer)]. *)
Theorem processAudio_ring (buffer : list A) (bufferIndex n : nat) :
  buffer ≠ [] → (bufferIndex ≤ length buffer)%nat →
  ∃ out idx',
    processAudio buffer bufferIndex n = Some (out, idx') ∧
    length out = n ∧
    (idx' ≤ length buffer)%nat ∧
    (∀ i, (i < n)%nat → out !! i = buffer !! ((bufferIndex + i) mod length buffer)%nat) ∧
    ((0 < n)%nat → idx' = S ((bufferIndex + n - 1) mod length buffer)).
Proof.
  intros Hne. assert (0 < length buffer)%nat as Hl.
  { destruct buffer; [done | simpl; lia]. }
  revert bufferIndex. induction n as [|n IH]; intros idx Hi; simpl.
  - exists [], idx. repeat split; try done; lia.
  - rewrite (wrapped_index _ _ Hl Hi).
    pose proof (Nat.mod_upper_bound idx (length buffer) ltac:(lia)) as Hlt.
    destruct (lookup_lt_is_Some_2 buffer _ Hlt) as [x Hx]. rewrite Hx.
    destruct (IH (S (idx mod length buffer)) ltac:(lia))
      as (out & idx' & Heq & Hlen & Hidx & Hout & Hnext).
    rewrite Heq.
    exists (x :: out), idx'. split; [done|]. split; [simpl; lia|].
    split; [done|]. split.
    + intros [|j] Hj; simpl.
      * by rewrite Nat.add_0_r.
      * rewrite Hout by lia. by rewrite succ_mod_add.
    + intros _. destruct n as [|n'].
      * simpl in Heq. injection Heq as _ <-.
        by replace (idx + 1 - 1)%nat with idx by lia.
      * rewrite Hnext by lia.
        replace (S (idx mod length buffer) + S n' - 1)%nat
          with (S (idx mod length buffer) + n')%nat by lia.
        rewrite succ_mod_add by done. f_equal. f_equal. lia.
Qed.

Lemma copy_snd (dst src : list A) :
  snd (copy dst src) =
    take (length dst `min` length src) src ++ drop (length dst `min` length src) dst.
Proof. done. Qed.

(** The output callback of the echo program never leaves old samples in
    [out]: a queued frame is played cut or padded with zeros to the length of
    [out], and without a frame the output is silence.  The callback of the
    loop-back program, with its explicit [copyLen], produces the same. *)
Theorem echoCallback_pads (out frame : list A) :
  echoCallback zero out (Some frame) =
    take (length out) (frame ++ replicate (length out) zero) ∧
  loopbackCallback zero out (Some frame) = echoCallback zero out (Some frame) ∧
  echoCallback zero out None = replicate (length out) zero ∧
  loopbackCallback zero out None = replicate (length out) zero.
Proof.
  assert (echoCallback zero out (Some frame) =
          take (length out) (frame ++ replicate (length out) zero)) as He.
  { unfold echoCallback, zeroFrom. rewrite copy_snd.
    destruct (le_lt_dec (length frame) (length out)) as [Hle|Hgt].
    - rewrite Nat.min_r by lia. rewrite (take_ge frame) by lia.
      rewrite take_app_length, length_app, length_drop.
      rewrite take_app_ge by lia. rewrite take_replicate.
      do 2 f_equal. lia.
    - rewrite Nat.min_l by lia. rewrite drop_all, app_nil_r.
      rewrite (take_ge (take _ _)) by (rewrite length_take; lia).
      rewrite length_take. replace (length out `min` length frame - length frame)%nat
        with 0%nat by lia.
      simpl. rewrite app_nil_r. by rewrite take_app_le by lia. }
  split; [done|]. split; [|split].
  - rewrite He. unfold loopbackCallback, zeroFrom. rewrite copy_snd.
    destruct (length out <? length frame)%nat eqn:E.
    + apply Nat.ltb_lt in E. rewrite length_take.
      rewrite !Nat.min_l by lia. rewrite drop_all, app_nil_r.
      rewrite take_take, Nat.min_id.
      rewrite (take_ge (take _ _)) by (rewrite length_take; lia).
      rewrite length_take. replace (length out `min` length frame - length out)%nat
        with 0%nat by lia.
      simpl. rewrite app_nil_r. by rewrite take_app_le by lia.
    + apply Nat.ltb_ge in E. rewrite (take_ge frame (length frame)) by lia.
      rewrite Nat.min_r by lia. rewrite (take_ge frame (length frame)) by lia.
      rewrite take_app_length, length_app, length_drop.
      rewrite take_app_ge by lia. rewrite take_replicate.
      do 2 f_equal. lia.
  - unfold echoCallback, zeroFrom. simpl. by rewrite Nat.sub_0_r.
  - unfold loopbackCallback, zeroFrom. simpl. by rewrite Nat.sub_0_r.
Qed.

End Samples.

Lemma processAudio_ring_witness :
  ∃ out idx',
    processAudio [10; 20; 30] 2 5 = Some (out, idx') ∧
    out = [30; 10; 20; 30; 10] ∧ idx' = 1%nat.
Proof.
  destruct (processAudio_ring [10; 20; 30] 2 5 ltac:(done) ltac:(simpl; lia))
    as (out & idx' & H & _ & _ & _ & Hnext).
  exists out, idx'. split; [exact H|].
  split; [|exact (Hnext ltac:(lia))].
  vm_compute in H. by injection H as <- _.
Defined.

End CallbackFacts.

(** * More on the session *)

Module SessionMore.
Import Session SessionFacts SessionRuns.

Lemma existsb_app_false {A} (f : A → bool) (l k : list A) :
  existsb f l = false → existsb f k = false → existsb f (l ++ k) = false.
Proof. intros Hl Hk. by rewrite existsb_app, Hl, Hk. Qed.

Lemma Disconnect_calls_no_token c :
  existsb is_token_exchange (snd (Disconnect c)) = false ∧
  ∀ sdp tok, SendOffer sdp tok ∉ snd (Disconnect c).
Proof.
  destruct c as [k m v t [pc|] [dc|]]; simpl; split; try done;
    intros sdp tok Hin;
    repeat (apply elem_of_cons in Hin as [Hin|Hin]; [done|]);
    by apply elem_of_nil in Hin.
Qed.

(** A credential, once held, is never fetched again: over any sequence of
    [Connect] and [Disconnect] calls, whatever the collaborators answer,
    there is no token exchange, the credential stays the same, and every
    offer is sent with it. *)
Theorem credential_fetched_once (c : OpenAIRealtimeAPI) (rs : list request) :
  ephemeralToken c ≠ EmptyString →
  ephemeralToken (session c rs).1 = ephemeralToken c ∧
  existsb is_token_exchange (session c rs).2 = false ∧
  (∀ sdp tok, SendOffer sdp tok ∈ (session c rs).2 → tok = ephemeralToken c).
Proof.
  revert c. induction rs as [|[w|] rs IH]; intros c Hne; simpl.
  - repeat split; try done. intros sdp tok Hin. by apply elem_of_nil in Hin.
  - destruct (Connect_cached c w Hne) as (Hx & Ht & Hs).
    destruct (IH (api (Connect c w)) ltac:(by rewrite Ht)) as (IH1 & IH2 & IH3).
    destruct (session (api (Connect c w)) rs) as [c' tr]. simpl in *.
    split; [by rewrite IH1|]. split; [by apply existsb_app_false|].
    intros sdp tok Hin. apply elem_of_app in Hin as [Hin|Hin]; [by eapply Hs|].
    rewrite <- Ht. by eapply IH3.
  - pose proof (Disconnect_token c) as Ht.
    destruct (Disconnect_calls_no_token c) as (Hx & Hs).
    destruct (Disconnect c) as [c1 tr1]. simpl in *.
    destruct (IH c1 ltac:(by rewrite Ht)) as (IH1 & IH2 & IH3).
    destruct (session c1 rs) as [c' tr]. simpl in *.
    split; [by rewrite IH1|]. split; [by apply existsb_app_false|].
    intros sdp tok Hin. apply elem_of_app in Hin as [Hin|Hin].
    + by apply Hs in Hin.
    + rewrite <- Ht. by eapply IH3.
Qed.

Lemma credential_fetched_once_witness :
  let c1 := api (Connect (NewOpenAIRealtimeAPI "sk-key") offer_refused) in
  ephemeralToken c1 = "ek_fresh"%string ∧
  (session c1 [DoConnect all_fine; DoDisconnect; DoConnect offer_refused;
               DoConnect all_fine]).2 =
    [NewPeerConnection; SendOffer "v=0 offer" "ek_fresh"; CreateDataChannel;
     CloseDataChannel 2; ClosePeerConnection 1;
     NewPeerConnection; SendOffer "v=0 offer" "ek_fresh"; ClosePeerConnection 7;
     NewPeerConnection; SendOffer "v=0 offer" "ek_fresh"; CreateDataChannel] ∧
  existsb is_token_exchange
    (session c1 [DoConnect all_fine; DoDisconnect; DoConnect offer_refused;
                 DoConnect all_fine]).2 = false.
Proof.
  intros c1.
  destruct (credential_fetched_once c1
              [DoConnect all_fine; DoDisconnect; DoConnect offer_refused;
               DoConnect all_fine] ltac:(by vm_compute)) as (_ & Hx & _).
  split; [reflexivity|]. split; [reflexivity | exact Hx].
Defined.

Local Ltac connect_case c :=
  simpl;
  repeat match goal with
         | |- _ ∧ _ => split
         | |- _ → _ => intros ?
         | H : _ ∨ _ |- _ => destruct H
         | H : Some _ = None |- _ => discriminate H
         | H : None = Some _ |- _ => discriminate H
         | H : Some _ = Some _ |- _ => discriminate H
         end;
  try done; try (by destruct c); eauto.

(** What one [Connect] leaves behind.  On success both handles are the
    freshly created ones and a credential is held.  When the offer exchange or
    the data channel fails, the new peer connection is closed last and the
    handle is cleared.  When the token exchange fails the session is
    untouched and nothing else was called; when the peer connection cannot be
    set up, the old handle stays and nothing is closed. *)
Theorem Connect_outcome (c : OpenAIRealtimeAPI) (w : replies) :
  (err (Connect c w) = None →
     is_Some (newPeerConnection w) ∧
     peerConnection (api (Connect c w)) = newPeerConnection w ∧
     is_Some (createDataChannel w) ∧
     dataChannel (api (Connect c w)) = createDataChannel w ∧
     ephemeralToken (api (Connect c w)) ≠ EmptyString ∧
     existsb is_close_pc (calls (Connect c w)) = false) ∧
  (err (Connect c w) = Some OfferFailed ∨
   err (Connect c w) = Some DataChannelFailed →
     peerConnection (api (Connect c w)) = None ∧
     ∃ pc, newPeerConnection w = Some pc ∧
           last (calls (Connect c w)) = Some (ClosePeerConnection pc)) ∧
  (err (Connect c w) = Some TokenFailed →
     api (Connect c w) = c ∧
     calls (Connect c w) = [TokenExchange (Key c) (Model c) (Voice c)]) ∧
  (err (Connect c w) = Some PeerConnectionFailed →
     peerConnection (api (Connect c w)) = peerConnection c ∧
     dataChannel (api (Connect c w)) = dataChannel c ∧
     existsb is_close_pc (calls (Connect c w)) = false).
Proof.
  unfold Connect, createEphemeralToken, setupPeerConnection,
    connectToRealtimeAPI, setupDataChannel, dropPeerConnection.
  destruct (String.eqb_spec (ephemeralToken c) EmptyString) as [He|Hne].
  - destruct (tokenReply w) as [v|]; [|connect_case c].
    destruct (String.eqb_spec v EmptyString) as [Hv|Hv]; [connect_case c|].
    destruct (newPeerConnection w) as [pc|]; [|connect_case c].
    destruct (addTransceiver w); [|connect_case c].
    destruct (createOffer w) as [sdp0|]; [|connect_case c].
    destruct (setLocalDescription w); [|connect_case c].
    destruct (answer w) as [ans|]; [|connect_case c].
    destruct (setRemoteDescription w); [|connect_case c].
    destruct (createDataChannel w) as [dc|]; connect_case c.
  - destruct (newPeerConnection w) as [pc|]; [|connect_case c].
    destruct (addTransceiver w); [|connect_case c].
    destruct (createOffer w) as [sdp0|]; [|connect_case c].
    destruct (setLocalDescription w); [|connect_case c].
    destruct (answer w) as [ans|]; [|connect_case c].
    destruct (setRemoteDescription w); [|connect_case c].
    destruct (createDataChannel w) as [dc|]; connect_case c.
Qed.

Lemma Connect_outcome_witness :
  peerConnection (api (Connect (NewOpenAIRealtimeAPI "sk-key") offer_refused)) = None ∧
  last (calls (Connect (NewOpenAIRealtimeAPI "sk-key") offer_refused)) =
    Some (ClosePeerConnection 7).
Proof.
  destruct (proj1 (proj2 (Connect_outcome (NewOpenAIRealtimeAPI "sk-key") offer_refused))
              ltac:(left; reflexivity)) as (Hpc & pc & Hnew & Hlast).
  split; [exact Hpc|]. injection Hnew as <-. exact Hlast.
Defined.

(** [Disconnect] releases what is held and nothing else: it closes the data
    channel, then the peer connection, each only when present, clears both
    handles, keeps the key, model, voice and credential, and a second
    [Disconnect] calls nothing. *)
Theorem Disconnect_releases (c : OpenAIRealtimeAPI) :
  peerConnection (Disconnect c).1 = None ∧
  dataChannel (Disconnect c).1 = None ∧
  (Disconnect c).2 =
    match dataChannel c with Some dc => [CloseDataChannel dc] | None => [] end ++
    match peerConnection c with Some pc => [ClosePeerConnection pc] | None => [] end ∧
  (Key (Disconnect c).1, Model (Disconnect c).1, Voice (Disconnect c).1,
   ephemeralToken (Disconnect c).1) = (Key c, Model c, Voice c, ephemeralToken c) ∧
  Disconnect (Disconnect c).1 = ((Disconnect c).1, []).
Proof. destruct c as [k m v t [pc|] [dc|]]; repeat split. Qed.

End SessionMore.

(** * More on the decode loops *)

Module PlayerMore.
Import AudioBuffer AudioBufferFacts Player PlayerFacts.

Section Loop.

Context {Decoder : Type}.
Variable process : Decoder → list byte → Decoder * option (list byte).

Lemma decodeLoop_app apClosed (st : loop_state) (t1 t2 : list rtp) :
  decodeLoop process apClosed st (t1 ++ t2) =
    match decodeLoop process apClosed st t1 with
    | (InReadRTP, st') => decodeLoop process apClosed st' t2
    | r => r
    end.
Proof.
  revert st. induction t1 as [|ev t1 IH]; intros st; simpl.
  - destruct apClosed; [by destruct t2 | done].
  - destruct apClosed; [done|]. destruct ev as [payload|]; [|done].
    destruct (process (decoder st) payload) as [d' [pcm|]]; [|apply IH].
    destruct (Write (audio st) pcm) as [[[n [e|]] b']|]; [apply IH | apply IH | done].
Qed.

(** A failed [track.ReadRTP()] ends the loop with the error: what was
    decoded before it has been handed to the buffer, and no packet after it
    is looked at.  And a loop whose player is closed returns nil before it
    reads anything. *)
Theorem read_error_ends_loop (st : loop_state) (payloads : list (list byte))
    (rest : list rtp) :
  closed (audio st) = false →
  (∀ d payload d' pcm,
      process d payload = (d', Some pcm) → len pcm ≤ highWater (audio st)) →
  (∃ b',
     decodeLoop process false st (map Packet payloads ++ ReadError :: rest) =
       (ReturnedError,
        {| decoder := fst (decoded process (decoder st) payloads);
           audio := b';
           delivered := delivered st ++ snd (decoded process (decoder st) payloads) |}) ∧
     after_writes (audio st) (snd (decoded process (decoder st) payloads)) = Some b') ∧
  decodeLoop process true st (map Packet payloads ++ ReadError :: rest) =
    (ReturnedNil, st).
Proof.
  intros Hopen Hfit. split.
  - destruct (decodeLoop_packets process st payloads Hopen Hfit) as (b' & Hrun & Haw).
    exists b'. split; [|done]. by rewrite decodeLoop_app, Hrun.
  - by destruct payloads.
Qed.

(** The loop does not notice a closed jitter buffer.  Every write fails,
    the failure is logged, and the loop goes on: it decodes every packet,
    stays in the loop, leaves the buffer as it is and delivers no byte. *)
Theorem closed_buffer_is_ignored (st : loop_state) (payloads : list (list byte)) :
  closed (audio st) = true →
  ∃ st',
    decodeLoop process false st (map Packet payloads) = (InReadRTP, st') ∧
    decoder st' = fst (decoded process (decoder st) payloads) ∧
    audio st' = audio st ∧
    concat (delivered st') = concat (delivered st).
Proof.
  revert st. induction payloads as [|p ps IH]; intros st Hc; simpl.
  - by exists st.
  - destruct (process (decoder st) p) as [d' [pcm|]] eqn:Ep.
    + pose proof (Write_cases (audio st) pcm) as Hw.
      destruct (Write (audio st) pcm) as [[[n e] b1]|].
      * destruct Hw as [(-> & _ & -> & ->)|[(_ & _ & _ & -> & ->)|(_ & ? & _)]];
          [| |congruence].
        -- destruct (IH {| decoder := d'; audio := audio st;
                           delivered := delivered st ++ [[]] |} Hc)
             as (st' & Hrun & Hd & Ha & Hdel).
           exists st'. rewrite Hrun. simpl in *.
           destruct (decoded process d' ps). simpl in *.
           rewrite Hdel, concat_app. simpl. by rewrite app_nil_r.
        -- destruct (IH {| decoder := d'; audio := audio st;
                           delivered := delivered st |} Hc)
             as (st' & Hrun & Hd & Ha & Hdel).
           exists st'. rewrite Hrun. simpl in *.
           by destruct (decoded process d' ps).
      * destruct Hw as (_ & ? & _). congruence.
    + destruct (IH {| decoder := d'; audio := audio st;
                      delivered := delivered st |} Hc)
        as (st' & Hrun & Hd & Ha & Hdel).
      exists st'. by rewrite Hrun.
Qed.

End Loop.

Section Players.

Context {Decoder : Type}.


(** What the second player hands to the buffer for a packet is always a
    whole [pcmBuf]: the decoder's output cut to 7680 bytes or followed by
    zeros up to 7680 bytes. *)
Theorem processV3_delivers
    (decodeV3 : Decoder → list byte → Decoder * option (list byte))
    (d : Decoder) (payload : list byte) :
  processV3 decodeV3 d payload =
    (fst (decodeV3 d payload),
     match snd (decodeV3 d payload) with
     | None => None
     | Some out => Some (take (96 * 20 * 4) (out ++ pcmBufV3))
     end) ∧
  ∀ d' pcm, processV3 decodeV3 d payload = (d', Some pcm) → len pcm = 7680.
Proof.
  split; [|intros d' pcm; apply processV3_len].
  unfold processV3. destruct (decodeV3 d payload) as [d' [out|]]; [|done].
  cbn [fst snd]. do 2 f_equal. unfold copy. cbn [snd].
  assert (length pcmBufV3 = (96 * 20 * 4)%nat) as Hl.
  { unfold pcmBufV3. by rewrite length_replicate. }
  rewrite Hl.
  destruct (le_lt_dec (length out) (96 * 20 * 4)) as [Hle|Hgt].
  - rewrite Nat.min_r by lia. rewrite take_ge by lia.
    rewrite take_app_ge by lia. f_equal.
    unfold pcmBufV3. rewrite drop_replicate, take_replicate. f_equal. lia.
  - rewrite Nat.min_l by lia. rewrite take_app_le by lia.
    rewrite drop_ge by lia. by rewrite app_nil_r.
Qed.

End Players.


Lemma read_error_ends_loop_witness :
  ∃ b',
    OpusV2_WriteWebRTCTrack toy_decode false toy_start
      [Packet [x01]; Packet []; ReadError; Packet [x02]] =
      (ReturnedError,
       {| decoder := 2%nat; audio := b'; delivered := [[x01; x00]] |}) ∧
    buf b' = [x01; x00].
Proof.
  destruct (proj1 (read_error_ends_loop (processV2 toy_decode) toy_start
                     [[x01]; []] [Packet [x02]] ltac:(reflexivity)
                     ltac:(intros d payload d' pcm H; apply processV2_len in H;
                           etrans; [exact H | by vm_compute])))
    as (b' & Hrun & Haw).
  exists b'. split; [exact Hrun|].
  vm_compute in Haw. by injection Haw as <-.
Defined.

Lemma closed_buffer_is_ignored_witness :
  ∃ st',
    OpusV2_WriteWebRTCTrack toy_decode false
      {| decoder := 0%nat; audio := fst (Close newAudioBuffer); delivered := [] |}
      [Packet [x01]; Packet []; Packet [x02]] = (InReadRTP, st') ∧
    decoder st' = 3%nat ∧ buf (audio st') = [] ∧ delivered st' = [].
Proof.
  destruct (closed_buffer_is_ignored (processV2 toy_decode)
              {| decoder := 0%nat; audio := fst (Close newAudioBuffer);
                 delivered := [] |}
              [[x01]; []; [x02]] ltac:(reflexivity))
    as (st' & Hrun & Hd & Ha & _).
  exists st'. split; [exact Hrun|]. split; [exact Hd|].
  split; [by rewrite Ha|].
  vm_compute in Hrun. by injection Hrun as <-.
Defined.

End PlayerMore.
